(** * svc2influxdb: a shallow embedding of the collector and its properties

    The development follows [svc2influxdb.py] top to bottom:
    - the Python run-time notions the script relies on (exceptions, [int],
      the [csv] readers, a parsed [configparser] file);
    - [ConfigFile], [SeriesBuilder] and its two concrete schemas;
    - the two SSH collectors and the [__main__] driver;
    - the properties of the specification, one theorem per claim.

    Dictionaries are [gmap]s.  The tag dictionaries, which the script shares
    between objects and updates in place, live in an explicit store and are
    passed around by address. *)

From Stdlib Require Import ZArith String Ascii List Lia.
From stdpp Require Import base option list gmap strings fin_maps.

Local Open Scope string_scope.
Local Open Scope Z_scope.
Local Open Scope list_scope.

(** ** Exceptions and results *)

(** The exceptions the script can raise or let through. *)
Inductive exn : Type :=
  | KeyError (key : string)
  | ValueError (literal : string)
  | TypeError
  | IndexError
  | AttributeError
  | CsvError
  | SystemExit (code : Z).

Inductive result (A : Type) : Type :=
  | Ok (a : A)
  | Raise (e : exn).
Arguments Ok {A} a.
Arguments Raise {A} e.

Module Res.
Definition bind {A B} (r : result A) (k : A → result B) : result B :=
  match r with
  | Ok a => k a
  | Raise e => Raise e
  end.

Definition is_ok {A} (r : result A) : bool :=
  match r with Ok _ => true | Raise _ => false end.

(** [for x in xs: acc.append(f x)], stopping at the first exception. *)
Fixpoint traverse {A B} (f : A → result B) (xs : list A) : result (list B) :=
  match xs with
  | [] => Ok []
  | x :: xs' => bind (f x) (λ y, bind (traverse f xs') (λ ys, Ok (y :: ys)))
  end.
End Res.

#[export] Instance result_ret : MRet result := @Ok.
#[export] Instance result_bind : MBind result := λ A B k r, Res.bind r k.

(** ** Python values stored in rows and tag dictionaries *)

(** A cell of a row is a string, or [None] where [csv.DictReader] pads a
    short record. *)
Inductive pyval : Type :=
  | PStr (s : string)
  | PNone.

#[export] Instance pyval_eq_dec : EqDecision pyval.
Proof. solve_decision. Defined.

(** ['%s' % v] *)
Definition format_s (v : pyval) : string :=
  match v with
  | PStr s => s
  | PNone => "None"
  end.

(** ** [int(str)] in base ten, on ASCII text

    Surrounding white space, an optional sign, then decimal digits, with
    single underscores allowed between digits.  The interpreter's limit on
    the number of digits is not modelled. *)

Definition is_space (c : ascii) : bool :=
  let n := nat_of_ascii c in
  (Nat.leb 9 n && Nat.leb n 13) || Nat.eqb n 32.

Definition digit_of (c : ascii) : option Z :=
  let n := nat_of_ascii c in
  if Nat.leb 48 n && Nat.leb n 57 then Some (Z.of_nat (n - 48)) else None.

Fixpoint lstrip (s : string) : string :=
  match s with
  | String c s' => if is_space c then lstrip s' else s
  | EmptyString => EmptyString
  end.

Fixpoint rstrip (s : string) : string :=
  match s with
  | String c s' =>
      match rstrip s' with
      | EmptyString => if is_space c then EmptyString else String c EmptyString
      | r => String c r
      end
  | EmptyString => EmptyString
  end.

(** Digits with single underscores allowed between them; [after_digit]
    records whether the previous character was a digit. *)
Fixpoint digits (s : string) (acc : Z) (after_digit : bool) : option Z :=
  match s with
  | EmptyString => if after_digit then Some acc else None
  | String c s' =>
      match digit_of c with
      | Some d => digits s' (10 * acc + d) true
      | None =>
          if Ascii.eqb c "_" && after_digit then digits s' acc false else None
      end
  end.

Definition signed_digits (s : string) : option Z :=
  match s with
  | String "-" s' => Z.opp <$> digits s' 0 false
  | String "+" s' => digits s' 0 false
  | _ => digits s 0 false
  end.

Definition int_of_string (s : string) : option Z :=
  signed_digits (rstrip (lstrip s)).

(** [int(value)]: [ValueError] on a malformed literal, [TypeError] on
    [None]. *)
Definition py_int (v : pyval) : result Z :=
  match v with
  | PStr s =>
      match int_of_string s with
      | Some n => Ok n
      | None => Raise (ValueError s)
      end
  | PNone => Raise TypeError
  end.

Definition int_convertible (v : pyval) : Prop := ∃ n, py_int v = Ok n.

(** ** [csv.reader] and [csv.DictReader], default (excel) dialect

    The reader is the character automaton of the [csv] module for the
    dialect the script uses: comma as delimiter, the double quote as quote
    character, doubled inside quoted fields, no escape character, not
    strict.  The reader's limit on the size of one field is not modelled. *)

Module Csv.

Inductive ParserState : Type :=
  | START_RECORD
  | START_FIELD
  | IN_FIELD
  | IN_QUOTED_FIELD
  | QUOTE_IN_QUOTED_FIELD
  | EAT_CRNL.

Record Reader : Type := mkReader {
  state : ParserState;
  field : string;
  fields : list string
}.

Definition parse_reset : Reader := mkReader START_RECORD "" [].

Definition goto (r : Reader) (st : ParserState) : Reader :=
  mkReader st (field r) (fields r).

Definition parse_save_field (r : Reader) (st : ParserState) : Reader :=
  mkReader st "" (fields r ++ [field r]).

Definition parse_add_char (r : Reader) (c : ascii) (st : ParserState) : Reader :=
  mkReader st (field r +:+ String c "") (fields r).

Definition is_newline (c : ascii) : bool :=
  Ascii.eqb c "010" || Ascii.eqb c "013".

Definition delimiter : ascii := ",".
Definition quotechar : ascii := "034".

(** The [START_FIELD] case, which [START_RECORD] falls through to. *)
Definition start_field (r : Reader) (c : option ascii) : Reader :=
  match c with
  | None => parse_save_field r START_RECORD
  | Some ch =>
      if is_newline ch then parse_save_field r EAT_CRNL
      else if Ascii.eqb ch quotechar then goto r IN_QUOTED_FIELD
      else if Ascii.eqb ch delimiter then parse_save_field r START_FIELD
      else parse_add_char r ch IN_FIELD
  end.

(** One step of the automaton; [None] is the end-of-line marker the reader
    feeds after the last character of each input line. *)
Definition parse_process_char (r : Reader) (c : option ascii) : result Reader :=
  match state r with
  | START_RECORD =>
      match c with
      | None => Ok r
      | Some ch =>
          if is_newline ch then Ok (goto r EAT_CRNL) else Ok (start_field r c)
      end
  | START_FIELD => Ok (start_field r c)
  | IN_FIELD =>
      match c with
      | None => Ok (parse_save_field r START_RECORD)
      | Some ch =>
          if is_newline ch then Ok (parse_save_field r EAT_CRNL)
          else if Ascii.eqb ch delimiter then Ok (parse_save_field r START_FIELD)
          else Ok (parse_add_char r ch IN_FIELD)
      end
  | IN_QUOTED_FIELD =>
      match c with
      | None => Ok r
      | Some ch =>
          if Ascii.eqb ch quotechar then Ok (goto r QUOTE_IN_QUOTED_FIELD)
          else Ok (parse_add_char r ch IN_QUOTED_FIELD)
      end
  | QUOTE_IN_QUOTED_FIELD =>
      match c with
      | None => Ok (parse_save_field r START_RECORD)
      | Some ch =>
          if Ascii.eqb ch quotechar then Ok (parse_add_char r ch IN_QUOTED_FIELD)
          else if Ascii.eqb ch delimiter then Ok (parse_save_field r START_FIELD)
          else if is_newline ch then Ok (parse_save_field r EAT_CRNL)
          else Ok (parse_add_char r ch IN_FIELD)
      end
  | EAT_CRNL =>
      match c with
      | None => Ok (goto r START_RECORD)
      | Some ch => if is_newline ch then Ok r else Raise CsvError
      end
  end.

(** The characters of one input line, then the end-of-line marker. *)
Fixpoint feed (r : Reader) (line : string) : result Reader :=
  match line with
  | EmptyString => parse_process_char r None
  | String c rest =>
      match parse_process_char r (Some c) with
      | Ok r' => feed r' rest
      | Raise e => Raise e
      end
  end.

(** What iterating a reader yields: the records read, in order, and the
    exception that ended the iteration, if one did. *)
Definition rows (A : Type) : Type := (list A * option exn)%type.

(** Successive [next(reader)] calls over the input lines.  A record ends
    when the automaton is back in [START_RECORD] at the end of a line;
    a quoted field left open continues on the next line, and is closed by
    the end of the input. *)
Fixpoint reader_from (r : Reader) (lines : list string) : rows (list string) :=
  match lines with
  | [] =>
      if negb (String.eqb (field r) "")
         || match state r with IN_QUOTED_FIELD => true | _ => false end
      then ([fields (parse_save_field r START_RECORD)], None)
      else ([], None)
  | line :: rest =>
      match feed r line with
      | Raise e => ([], Some e)
      | Ok r' =>
          match state r' with
          | START_RECORD =>
              let '(rs, e) := reader_from parse_reset rest in
              (fields r' :: rs, e)
          | _ => reader_from r' rest
          end
      end
  end.

Definition reader (lines : list string) : rows (list string) :=
  reader_from parse_reset lines.

(** [dict(zip(fieldnames, row))], then [None] for the field names a short
    record leaves without a value.  The entry a long record gets under the
    key [None] is left out: the script only looks string keys up. *)
Fixpoint zip_row (fieldnames row : list string) (d : gmap string pyval)
  : gmap string pyval :=
  match fieldnames, row with
  | k :: ks, v :: vs => zip_row ks vs (<[k := PStr v]> d)
  | k :: ks, [] => zip_row ks [] (<[k := PNone]> d)
  | [], _ => d
  end.

Definition nonempty_record (rec : list string) : bool :=
  match rec with [] => false | _ => true end.

(** The first record gives the field names; empty records are skipped. *)
Definition DictReader (lines : list string) : rows (gmap string pyval) :=
  match reader lines with
  | ([], e) => ([], e)
  | (fieldnames :: recs, e) =>
      ((λ rec, zip_row fieldnames rec ∅)
         <$> filter (λ rec, nonempty_record rec = true) recs,
       e)
  end.

End Csv.

(** ** Series points, the store and the sink *)

(** One point as handed to the sink: the dictionary [_build_series]
    returns.  [time] is [None] when the dictionary has no ['time'] key. *)
Record SeriesPoint : Type := mkPoint {
  measurement : string;
  tags : gmap string pyval;
  fields : gmap string Z;
  time : option Z
}.

(** Calls received by the InfluxDB client, oldest first. *)
Inductive SinkCall : Type :=
  | CreateDatabase (db : string)
  | WritePoints (db : string) (points : list SeriesPoint) (time_precision : string).

(** The mutable world of one run: the tag dictionaries (a dictionary is
    known by its address, its index in [dicts]), the number of remote
    commands sent so far, and the calls made to the sink. *)
Record State : Type := mkState {
  dicts : list (gmap string pyval);
  sent : nat;
  sink : list SinkCall
}.

Definition M (A : Type) : Type := State → result A * State.

#[export] Instance M_ret : MRet M := λ A a s, (Ok a, s).
#[export] Instance M_bind : MBind M := λ A B k m s,
  match m s with
  | (Ok a, s') => k a s'
  | (Raise e, s') => (Raise e, s')
  end.

Definition raise {A} (e : exn) : M A := λ s, (Raise e, s).

Definition lift {A} (r : result A) : M A := λ s, (r, s).

(** A new dictionary object with the given contents. *)
Definition alloc (d : gmap string pyval) : M nat := λ s,
  (Ok (length (dicts s)), mkState (dicts s ++ [d]) (sent s) (sink s)).

(** Contents of the dictionary at an address.  Addresses only come from
    [alloc], so the default is never read in a run of the script. *)
Definition contents (st : State) (l : nat) : gmap string pyval :=
  default ∅ (dicts st !! l).

Definition load (l : nat) : M (gmap string pyval) := λ s, (Ok (contents s l), s).

Definition store (l : nat) (d : gmap string pyval) : M unit := λ s,
  (Ok (), mkState (<[l := d]> (dicts s)) (sent s) (sink s)).

Definition log (c : SinkCall) : M unit := λ s,
  (Ok (), mkState (dicts s) (sent s) (sink s ++ [c])).

(** [for x in xs: acc.append(f(x))] *)
Fixpoint for_each {A B} (f : A → M B) (xs : list A) : M (list B) :=
  match xs with
  | [] => mret []
  | x :: xs' => y ← f x; ys ← for_each f xs'; mret (y :: ys)
  end.

(** The same over a csv reader: the loop body runs on every record read,
    then the reader's own exception, if any, ends the loop. *)
Definition for_rows {A B} (f : A → M B) (rs : Csv.rows A) : M (list B) :=
  ys ← for_each f rs.1;
  match rs.2 with
  | Some e => raise e
  | None => mret ys
  end.

(** [d[key]] on a dictionary value. *)
Definition getitem {V} (d : gmap string V) (key : string) : result V :=
  match d !! key with
  | Some v => Ok v
  | None => Raise (KeyError key)
  end.

(** ** [ConfigFile] *)

(** The parsed configuration file: what [configparser] holds after
    [read].  Option names are stored lower-cased and every section also
    shows the options of [DEFAULT]; value interpolation is not modelled. *)
Record ConfigParser : Type := mkConf {
  defaults : gmap string string;
  sects : list (string * gmap string string)
}.

(** [conf.sections()] *)
Definition sections (conf : ConfigParser) : list string := (sects conf).*1.

Fixpoint assoc (name : string) (l : list (string * gmap string string))
  : option (gmap string string) :=
  match l with
  | [] => None
  | (n, m) :: l' => if String.eqb n name then Some m else assoc name l'
  end.

(** [conf[name]]: the options visible in a section. *)
Definition section (conf : ConfigParser) (name : string)
  : result (gmap string string) :=
  if String.eqb name "DEFAULT" then Ok (defaults conf)
  else match assoc name (sects conf) with
       | Some m => Ok (m ∪ defaults conf)
       | None => Raise (KeyError name)
       end.

Record InfluxConf : Type := mkInflux {
  db_address : string;
  db_username : option string;
  db_password : option string;
  db_database : string
}.

(** [x if x else None] on a string *)
Definition or_none (s : string) : option string :=
  if String.eqb s "" then None else Some s.

Definition get_influxdb (conf : ConfigParser) : result InfluxConf :=
  influx ← section conf "INFLUXDB";
  address ← getitem influx "address";
  username ← getitem influx "username";
  password ← getitem influx "password";
  database ← getitem influx "database";
  mret (mkInflux address (or_none username) (or_none password)
          (if String.eqb database "" then "svc2influxdb" else database)).

(** The [equipment] dictionary a step of [get_svc] yields; its ['tags']
    entry is the address of a dictionary made anew for each section. *)
Record Equipment : Type := mkEquipment {
  eq_tags : nat;
  eq_address : string;
  eq_login : string;
  eq_password : string
}.

Definition not_a_tag : list string := ["name"; "address"; "login"; "password"].

(** The inner loop of [get_svc]: every option that is not in [not_a_tag]
    is written into the tag dictionary. *)
Definition section_tags (options : gmap string string) (tags0 : gmap string pyval)
  : gmap string pyval :=
  map_fold (λ item value acc,
              if decide (item ∈ not_a_tag) then acc else <[item := PStr value]> acc)
           tags0 options.

(** The body of the generator's loop for one section other than
    [INFLUXDB], up to its [yield]. *)
Definition get_svc_step (conf : ConfigParser) (name : string) : M Equipment :=
  tags ← alloc {[ "svc" := PStr name ]};
  options ← lift (section conf name);
  address ← lift (getitem options "address");
  login ← lift (getitem options "login");
  password ← lift (getitem options "password");
  d ← load tags;
  _ ← store tags (section_tags options d);
  mret (mkEquipment tags address login password).

(** [get_svc] is a generator: it is modelled by the steps it runs between
    two [yield]s, one per section, which the consumer runs one at a time. *)
Definition get_svc (conf : ConfigParser) : list (M Equipment) :=
  get_svc_step conf <$> filter (λ name, name ≠ "INFLUXDB") (sections conf).

(** ** [SeriesBuilder] *)

Record SeriesBuilder : Type := mkBuilder {
  _extras_tags : nat;
  _fixed_time : option Z;
  _measurements : list string;
  _tags : list string
}.

(** [SeriesBuilder.__init__]: [_extras_tags] starts as a new empty
    dictionary. *)
Definition SeriesBuilder_init (fixed_time : option Z) : M SeriesBuilder :=
  extras ← alloc ∅;
  mret (mkBuilder extras fixed_time [] []).

Definition pool_measurements : list string :=
  ["capacity"; "virtual_capacity"; "compression_compressed_capacity";
   "compression_uncompressed_capacity"; "overallocation"; "vdisk_count";
   "compression_virtual_capacity"; "free_capacity"; "real_capacity";
   "used_capacity"].

Definition pool_tags : list string := ["name"; "id"].

Definition volume_measurements : list string :=
  ["capacity"; "virtual_capacity"; "used_capacity"; "real_capacity";
   "free_capacity"; "uncompressed_used_capacity"].

Definition volume_tags : list string := ["name"; "id"; "vdisk_UID"].

Definition PoolSeriesBuilder (fixed_time : option Z) : M SeriesBuilder :=
  b ← SeriesBuilder_init fixed_time;
  mret (mkBuilder (_extras_tags b) (_fixed_time b) pool_measurements pool_tags).

Definition VolumeSeriesBuilder (fixed_time : option Z) : M SeriesBuilder :=
  b ← SeriesBuilder_init fixed_time;
  mret (mkBuilder (_extras_tags b) (_fixed_time b) volume_measurements volume_tags).

(** Truth value of [self._fixed_time]: [None] and [0] are false. *)
Definition truthy (t : option Z) : bool :=
  match t with
  | Some z => negb (z =? 0)
  | None => false
  end.

(** [for key, value in tags.items(): new_series['tags'][key] = value] *)
Definition copy_items (d : gmap string pyval) : gmap string pyval :=
  map_fold (λ key value acc, <[key := value]> acc) ∅ d.

(** ['%s_%s' % (prefix, measurement)] *)
Definition series_name (prefix measurement : string) : string :=
  prefix +:+ "_" +:+ measurement.

(** [_build_series]; [tags] is the address of the dictionary to copy. *)
Definition _build_series (self : SeriesBuilder) (measurement : string)
    (tags : nat) (value : pyval) (prefix : string) : M SeriesPoint :=
  n ← lift (py_int value);
  d ← load tags;
  mret (mkPoint (series_name prefix measurement)
                (copy_items d)
                {[ "value" := n ]}
                (if truthy (_fixed_time self) then _fixed_time self else None)).

(** [add_extras_tags] keeps the caller's dictionary itself, not a copy. *)
Definition add_extras_tags (self : SeriesBuilder) (tags : nat) : SeriesBuilder :=
  mkBuilder tags (_fixed_time self) (_measurements self) (_tags self).

(** [{tag: data[tag] for tag in self._tags}] *)
Fixpoint row_tags (data : gmap string pyval) (names : list string)
    (acc : gmap string pyval) : result (gmap string pyval) :=
  match names with
  | [] => Ok acc
  | tag :: names' =>
      match data !! tag with
      | Some v => row_tags data names' (<[tag := v]> acc)
      | None => Raise (KeyError tag)
      end
  end.

(** [d.update(other)]: the entries of [other] win. *)
Definition update (l : nat) (other : gmap string pyval) : M unit :=
  d ← load l;
  store l (other ∪ d).

(** The loop of [parse] over the measurement names still to visit. *)
Fixpoint parse_loop (self : SeriesBuilder) (data : gmap string pyval)
    (prefix : string) (merged_tags : nat) (names : list string)
    (series : list SeriesPoint) : M (list SeriesPoint) :=
  match names with
  | [] => mret series
  | measurement :: names' =>
      match data !! measurement with
      | Some value =>
          other ← lift (row_tags data (_tags self) ∅);
          _ ← update merged_tags other;
          p ← _build_series self measurement merged_tags value prefix;
          parse_loop self data prefix merged_tags names' (series ++ [p])
      | None => parse_loop self data prefix merged_tags names' series
      end
  end.

Definition parse (self : SeriesBuilder) (data : gmap string pyval)
    (prefix : string) : M (list SeriesPoint) :=
  extras ← load (_extras_tags self);
  merged_tags ← alloc extras;
  parse_loop self data prefix merged_tags (_measurements self) [].

(** ** The SSH collectors *)

Inductive ConnectOutcome : Type :=
  | Connected
  | AuthenticationFailed
  | TimedOut.

(** The collaborators outside the script: the appliances reached over SSH
    and the InfluxDB server.  [exec_command k address command] is the
    standard output, line by line, of the [k]-th command of the run. *)
Record Env : Type := mkEnv {
  connect : string → string → string → ConnectOutcome;
  exec_command : nat → string → string → list string;
  database_reachable : bool
}.

Record SSHCollector : Type := mkCollector {
  _builder : option SeriesBuilder;
  _address : string;
  _user : string;
  _password : string
}.

Inductive Kind : Type := Pool | Volume.

Section Collectors.
Context (env : Env).

(** [SSHCollector.__init__], called with the entries of [svc] as keyword
    arguments: a failed connection ends the process with status 1. *)
Definition SSHCollector_init (svc : Equipment) : M SSHCollector :=
  match connect env (eq_address svc) (eq_login svc) (eq_password svc) with
  | Connected => mret (mkCollector None (eq_address svc) (eq_login svc) (eq_password svc))
  | AuthenticationFailed => raise (SystemExit 1)
  | TimedOut => raise (SystemExit 1)
  end.

Definition add_series_builder (self : SSHCollector) (builder : SeriesBuilder)
  : SSHCollector :=
  mkCollector (Some builder) (_address self) (_user self) (_password self).

Definition _send_command (self : SSHCollector) (command : string)
  : M (list string) := λ s,
  (Ok (exec_command env (sent s) (_address self) command),
   mkState (dicts s) (S (sent s)) (sink s)).

(** [self._builder.parse(line, prefix)] *)
Definition builder_parse (self : SSHCollector) (prefix : string)
    (line : gmap string pyval) : M (list SeriesPoint) :=
  match _builder self with
  | Some b => parse b line prefix
  | None => raise AttributeError
  end.

Definition Pool_collect (self : SSHCollector) : M (list (list SeriesPoint)) :=
  stdout ← _send_command self "lsmdiskgrp -bytes -delim ,";
  for_rows (builder_parse self "pool") (Csv.DictReader stdout).

(** [{line[0]: line[1] for line in reader if line}] *)
Fixpoint detail_dict (recs : list (list string)) (acc : gmap string pyval)
  : result (gmap string pyval) :=
  match recs with
  | [] => Ok acc
  | [] :: recs' => detail_dict recs' acc
  | [_] :: _ => Raise IndexError
  | (k :: v :: _) :: recs' => detail_dict recs' (<[k := PStr v]> acc)
  end.

Definition detail_rows (rs : Csv.rows (list string)) : result (gmap string pyval) :=
  d ← detail_dict rs.1 ∅;
  match rs.2 with
  | Some e => Raise e
  | None => Ok d
  end.

Definition _get_volume_details (self : SSHCollector) (identifier : pyval)
  : M (gmap string pyval) :=
  stdout ← _send_command self ("lsvdisk -bytes -delim , " +:+ format_s identifier);
  lift (detail_rows (Csv.reader stdout)).

Definition Volume_collect (self : SSHCollector) : M (list (list SeriesPoint)) :=
  stdout ← _send_command self "lsvdisk -bytes -delim ,";
  volume_details ←
    for_rows (λ line, identifier ← lift (getitem line "id");
                      _get_volume_details self identifier)
             (Csv.DictReader stdout);
  for_each (builder_parse self "volume") volume_details.

Definition collect (kind : Kind) (self : SSHCollector) : M (list (list SeriesPoint)) :=
  match kind with
  | Pool => Pool_collect self
  | Volume => Volume_collect self
  end.

(** ** [__main__] *)

(** One turn of the loop over [get_svc()]: the generator runs up to its
    next [yield], then the loop body runs. *)
Definition main_step (acc : SeriesBuilder * SeriesBuilder * list (list SeriesPoint))
    (next : M Equipment)
  : M (SeriesBuilder * SeriesBuilder * list (list SeriesPoint)) :=
  let '(pool_series_builder, volume_series_builder, series) := acc in
  svc ← next;
  let pool_series_builder := add_extras_tags pool_series_builder (eq_tags svc) in
  let volume_series_builder := add_extras_tags volume_series_builder (eq_tags svc) in
  svc_pool ← SSHCollector_init svc;
  svc_volume ← SSHCollector_init svc;
  let svc_pool := add_series_builder svc_pool pool_series_builder in
  let svc_volume := add_series_builder svc_volume volume_series_builder in
  pool_series ← collect Pool svc_pool;
  volume_series ← collect Volume svc_volume;
  mret (pool_series_builder, volume_series_builder,
        (series ++ pool_series ++ volume_series)).

Fixpoint main_loop (acc : SeriesBuilder * SeriesBuilder * list (list SeriesPoint))
    (gen : list (M Equipment)) : M (list (list SeriesPoint)) :=
  match gen with
  | [] => mret acc.2
  | next :: gen' => acc' ← main_step acc next; main_loop acc' gen'
  end.

Definition create_database (db : string) : M unit :=
  if database_reachable env then log (CreateDatabase db)
  else raise (SystemExit 1).

Fixpoint write_all (db : string) (series : list (list SeriesPoint)) : M unit :=
  match series with
  | [] => mret ()
  | serie :: series' =>
      _ ← log (WritePoints db serie "ms");
      write_all db series'
  end.

(** The collection phase of the script: the two builders, then the loop
    over the appliances.  [fixed] is the [--fixed] flag and [now] what
    [timestamp_ms()] returned. *)
Definition collect_all (conf : ConfigParser) (fixed : bool) (now : Z)
  : M (list (list SeriesPoint)) :=
  pool_series_builder ← PoolSeriesBuilder (if fixed then Some now else None);
  volume_series_builder ← VolumeSeriesBuilder (if fixed then Some now else None);
  main_loop (pool_series_builder, volume_series_builder, []) (get_svc conf).

(** The script's body: configuration, collection, then the writes. *)
Definition main (conf : ConfigParser) (fixed : bool) (now : Z) : M unit :=
  configuration ← lift (get_influxdb conf);
  series ← collect_all conf fixed now;
  _ ← create_database (db_database configuration);
  write_all (db_database configuration) series.

End Collectors.

Definition initial : State := mkState [] 0 [].

(** * Specification-level definitions *)

(** The measurement names of a schema that are keys of a row, in schema
    order. *)
Definition present (data : gmap string pyval) (names : list string) : list string :=
  filter (λ m, is_Some (data !! m)) names.

(** The point built for [measurement] from merged tags [merged] and the
    converted value [n]. *)
Definition point_for (self : SeriesBuilder) (prefix measurement : string)
    (merged : gmap string pyval) (n : Z) : SeriesPoint :=
  mkPoint (series_name prefix measurement) merged {[ "value" := n ]}
          (if truthy (_fixed_time self) then _fixed_time self else None).

(** The outcome of [parse] written as a function of the contents [extras]
    of the extra-tags dictionary: no side effect, no store.  [parse_run]
    below proves that [parse] computes it. *)
Definition points_of_row (self : SeriesBuilder) (extras data : gmap string pyval)
    (prefix : string) : result (list SeriesPoint) :=
  match present data (_measurements self) with
  | [] => Ok []
  | names =>
      other ← row_tags data (_tags self) ∅;
      Res.traverse
        (λ m, n ← py_int (default PNone (data !! m));
              mret (point_for self prefix m (other ∪ extras) n))
        names
  end.

(** The contents of the working dictionary [merged_tags] when [parse]
    ends. *)
Definition merged_after (self : SeriesBuilder) (extras data : gmap string pyval)
  : gmap string pyval :=
  match present data (_measurements self), row_tags data (_tags self) ∅ with
  | _ :: _, Ok other => other ∪ extras
  | _, _ => extras
  end.

(** Every tag name of the schema is a key of the row. *)
Definition has_tags (self : SeriesBuilder) (data : gmap string pyval) : Prop :=
  Forall (λ t, is_Some (data !! t)) (_tags self).

Definition convertible (v : pyval) : bool := Res.is_ok (py_int v).

(** Every measurement of the schema that the row has converts to an
    integer. *)
Definition numeric_row (self : SeriesBuilder) (data : gmap string pyval) : Prop :=
  Forall (λ m, convertible (default PNone (data !! m)) = true)
         (present data (_measurements self)).

(** Some measurement name of the schema maps, in the row, to a value that
    does not convert to an integer. *)
Definition not_numeric (self : SeriesBuilder) (data : gmap string pyval) : Prop :=
  ∃ m v, m ∈ _measurements self ∧ data !! m = Some v ∧ convertible v = false.

(** How many points of a series carry a given measurement name. *)
Definition count_named (name : string) (series : list SeriesPoint) : nat :=
  length (filter (λ p, measurement p = name) series).

(** Same schema and same fixed time. *)
Definition same_configuration (b1 b2 : SeriesBuilder) : Prop :=
  _fixed_time b1 = _fixed_time b2 ∧
  _measurements b1 = _measurements b2 ∧
  _tags b1 = _tags b2.

(** A computation that leaves the tag dictionaries and the sink as they
    are, and one that leaves the sink as it is. *)
Definition keeps_dicts_and_sink {A} (m : M A) : Prop :=
  ∀ s, dicts (m s).2 = dicts s ∧ sink (m s).2 = sink s.

Definition keeps_sink {A} (m : M A) : Prop := ∀ s, sink (m s).2 = sink s.

(** ** What a collector reads and returns *)

Definition prefix_of (kind : Kind) : string :=
  match kind with
  | Pool => "pool"
  | Volume => "volume"
  end.

(** The raw rows of a pool listing: [list(csv.DictReader(stdout))]. *)
Definition Pool_rows (env : Env) (self : SSHCollector) : M (list (gmap string pyval)) :=
  stdout ← _send_command env self "lsmdiskgrp -bytes -delim ,";
  for_rows mret (Csv.DictReader stdout).

(** The raw rows of the volumes: the [volume_details] list of
    [VolumeSSHCollector.collect]. *)
Definition Volume_rows (env : Env) (self : SSHCollector) : M (list (gmap string pyval)) :=
  stdout ← _send_command env self "lsvdisk -bytes -delim ,";
  for_rows (λ line, identifier ← lift (getitem line "id");
                    _get_volume_details env self identifier)
           (Csv.DictReader stdout).

Definition raw_rows (env : Env) (kind : Kind) (self : SSHCollector)
  : M (list (gmap string pyval)) :=
  match kind with
  | Pool => Pool_rows env self
  | Volume => Volume_rows env self
  end.

(** The shape of a Python value made of points and lists. *)
#[warnings="-register-all"]
Inductive pyobj : Type :=
  | PyPoint (p : SeriesPoint)
  | PyList (items : list pyobj).

Class Repr (A : Type) : Type := repr : A → pyobj.
#[export] Instance repr_point : Repr SeriesPoint := PyPoint.
#[export] Instance repr_list {A} `{Repr A} : Repr (list A) :=
  λ l, PyList (repr <$> l).

(** A list each of whose elements is a single point. *)
Definition flat_sequence_of_points (v : pyobj) : Prop :=
  ∃ points : list SeriesPoint, v = PyList (PyPoint <$> points).

(** A conversion error of [int]. *)
Definition parse_error (e : exn) : Prop :=
  e = TypeError ∨ ∃ literal, e = ValueError literal.

(** ** Lines of volume-detail output *)

(** A character that is neither a line break nor the delimiter. *)
Definition field_char (c : ascii) : bool :=
  negb (Csv.is_newline c) && negb (Ascii.eqb c Csv.delimiter).

Fixpoint field_chars (s : string) : bool :=
  match s with
  | EmptyString => true
  | String c s' => field_char c && field_chars s'
  end.

(** Text that stands for itself as a field: no delimiter, no line break,
    and not starting with the quote character. *)
Definition unquoted (s : string) : bool :=
  field_chars s
  && match s with
     | String c _ => negb (Ascii.eqb c Csv.quotechar)
     | EmptyString => true
     end.

(** The inside of a quoted field: every quote character doubled. *)
Fixpoint double_quotes (s : string) : string :=
  match s with
  | EmptyString => EmptyString
  | String c s' =>
      if Ascii.eqb c Csv.quotechar then String c (String c (double_quotes s'))
      else String c (double_quotes s')
  end.

Definition quoted (s : string) : string :=
  String Csv.quotechar (double_quotes s +:+ String Csv.quotechar "").

(** A field of a line: its value written as it is, or between quotes. *)
Inductive field_text : Type :=
  | Unquoted (v : string)
  | Quoted (v : string).

Definition text_of (f : field_text) : string :=
  match f with
  | Unquoted v => v
  | Quoted v => quoted v
  end.

Definition value_of (f : field_text) : string :=
  match f with
  | Unquoted v => v
  | Quoted v => v
  end.

Definition field_ok (f : field_text) : Prop :=
  match f with
  | Unquoted v => unquoted v = true
  | Quoted _ => True
  end.

(** Where the automaton is once it has read the text of a field. *)
Definition after_field (st st' : Csv.ParserState) (v : string) : Prop :=
  st' = Csv.IN_FIELD ∨ st' = Csv.QUOTE_IN_QUOTED_FIELD ∨ (st' = st ∧ v = "").

(** A line terminator: any run of carriage returns and line feeds, also
    the empty one. *)
Fixpoint newlines (s : string) : bool :=
  match s with
  | EmptyString => true
  | String c s' => Csv.is_newline c && newlines s'
  end.

(** One line of detail output, before its terminator: blank, or
    [fieldName,value]. *)
Inductive detail_line : Type :=
  | Blank
  | Field (name value : field_text).

#[export] Instance field_text_eq_dec : EqDecision field_text.
Proof. solve_decision. Defined.

#[export] Instance detail_line_eq_dec : EqDecision detail_line.
Proof. solve_decision. Defined.

(** A line with its terminator. *)
Definition well_formed (l : detail_line * string) : Prop :=
  newlines l.2 = true ∧
  match l.1 with
  | Blank => True
  | Field name value => field_ok name ∧ field_ok value
  end.

Definition render (l : detail_line * string) : string :=
  match l.1 with
  | Blank => l.2
  | Field name value => text_of name +:+ "," +:+ text_of value +:+ l.2
  end.

Definition record_of (l : detail_line) : list string :=
  match l with
  | Blank => []
  | Field name value => [value_of name; value_of value]
  end.

(** The field name and the value a line gives, if it is not blank. *)
Definition entry_of (l : detail_line) : option (string * string) :=
  match l with
  | Blank => None
  | Field name value => Some (value_of name, value_of value)
  end.

(** The row that maps each field name to its value; where a name comes
    twice the later line wins, as in a dictionary. *)
Definition row_of_details (ls : list detail_line) : gmap string pyval :=
  foldl (λ d l, match entry_of l with
                | None => d
                | Some (name, value) => <[name := PStr value]> d
                end) ∅ ls.

(** ** Notions used by the further properties *)

(** The options [get_influxdb] reads, and those [get_svc] reads in every
    appliance section. *)
Definition influx_keys : list string :=
  ["address"; "username"; "password"; "database"].

Definition appliance_keys : list string := ["address"; "login"; "password"].

(** A computation that sends no remote command. *)
Definition keeps_sent {A} (m : M A) : Prop := ∀ s, sent (m s).2 = sent s.

(** The measurement names of the schema of each kind of collector. *)
Definition schema_measurements (kind : Kind) : list string :=
  match kind with
  | Pool => pool_measurements
  | Volume => volume_measurements
  end.

(** The text of a record of a listing: its fields, separated by the
    delimiter. *)
Fixpoint render_fields (fs : list field_text) : string :=
  match fs with
  | [] => ""
  | f :: fs' =>
      match fs' with
      | [] => text_of f
      | _ :: _ => text_of f +:+ "," +:+ render_fields fs'
      end
  end.

(** One line of a listing: its fields and its terminator. *)
Definition render_line (l : list field_text * string) : string :=
  render_fields l.1 +:+ l.2.

(** A line the reader takes field by field.  The single empty unquoted
    field is left out: its text is that of a blank line. *)
Definition line_ok (l : list field_text * string) : Prop :=
  newlines l.2 = true ∧ Forall field_ok l.1 ∧ l.1 ≠ [Unquoted ""].

Definition values_of (l : list field_text * string) : list string :=
  value_of <$> l.1.

(** The lines of a listing that are not blank. *)
Definition records_of (ls : list (list field_text * string))
  : list (list field_text * string) :=
  filter (λ l, l.1 ≠ []) ls.

(** The cell of a record under the [i]-th field name: [None] where the
    record is too short. *)
Definition cell (rec : list string) (i : nat) : pyval :=
  from_option PStr PNone (rec !! i).

(** The row [row] holds the record [rec] under the field names [names]. *)
Definition row_holds (names rec : list string) (row : gmap string pyval) : Prop :=
  (∀ i name, names !! i = Some name → row !! name = Some (cell rec i)) ∧
  (∀ key, key ∉ names → row !! key = None).

(** The tag names of the schema of each kind of collector. *)
Definition schema_tags (kind : Kind) : list string :=
  match kind with
  | Pool => pool_tags
  | Volume => volume_tags
  end.

(** A builder of the given kind, as [__main__] makes it: the schema of
    the kind and the fixed time [t]. *)
Definition builder_of (kind : Kind) (t : option Z) (b : SeriesBuilder) : Prop :=
  _measurements b = schema_measurements kind ∧
  _tags b = schema_tags kind ∧
  _fixed_time b = t.

(** The shape of a point collected in a run whose builders have the fixed
    time [t]. *)
Definition collected_point (t : option Z) (p : SeriesPoint) : Prop :=
  (∃ kind m, m ∈ schema_measurements kind ∧
             measurement p = series_name (prefix_of kind) m) ∧
  (∃ n, fields p = {[ "value" := n ]}) ∧
  time p = (if truthy t then t else None) ∧
  is_Some (tags p !! "svc") ∧
  is_Some (tags p !! "name") ∧
  is_Some (tags p !! "id").

(** ** Data of the worked examples *)

(** A store holding one tag dictionary, at address 0. *)
Definition store_prod : State := mkState [{[ "env" := PStr "prod" ]}] 0 [].

(** The same with extra tags that also have the key [id]. *)
Definition store_shared_id : State :=
  mkState [{[ "env" := PStr "prod"; "id" := PStr "appliance" ]}] 0 [].

Definition pool_builder (fixed_time : option Z) : SeriesBuilder :=
  mkBuilder 0 fixed_time pool_measurements pool_tags.

Definition row_poolA : gmap string pyval :=
  {[ "name" := PStr "poolA"; "id" := PStr "1";
     "capacity" := PStr "1000000"; "free_capacity" := PStr "250" ]}.

Definition row_not_numeric : gmap string pyval :=
  {[ "name" := PStr "poolA"; "id" := PStr "1"; "capacity" := PStr "N/A" ]}.

Definition row_not_numeric_without_tags : gmap string pyval :=
  {[ "capacity" := PStr "N/A" ]}.

Definition row_without_id : gmap string pyval :=
  {[ "name" := PStr "poolA"; "capacity" := PStr "1000000" ]}.

Definition conf_example : ConfigParser :=
  mkConf ∅
    [("INFLUXDB", {[ "address" := "influx.example"; "username" := "";
                     "password" := ""; "database" := "" ]});
     ("SVC1", {[ "address" := "10.0.0.1"; "login" := "a"; "password" := "b";
                 "site" := "dc1" ]})].

Definition detail_example : list string :=
  ["id,1"; ""; "capacity,1024"; "name,vol1"].

(** An appliance with one pool and one volume, always reachable. *)
Definition env_example : Env :=
  mkEnv (λ _ _ _, Connected)
        (λ _ _ command,
           if String.eqb command "lsmdiskgrp -bytes -delim ,"
           then ["name,id,capacity"; "poolA,1,1000000"]
           else if String.eqb command "lsvdisk -bytes -delim ,"
           then ["id,name"; "1,vol1"]
           else detail_example)
        true.

Definition collector_example (b : SeriesBuilder) : SSHCollector :=
  mkCollector (Some b) "10.0.0.1" "a" "b".

(** The same appliance, reporting a capacity that is not a number. *)
Definition env_not_numeric : Env :=
  mkEnv (λ _ _ _, Connected)
        (λ _ _ command,
           if String.eqb command "lsmdiskgrp -bytes -delim ,"
           then ["name,id,capacity"; "poolA,1,N/A"]
           else [])
        true.

(** An appliance with one pool and no volume. *)
Definition env_pool_only : Env :=
  mkEnv (λ _ _ _, Connected)
        (λ _ _ command,
           if String.eqb command "lsmdiskgrp -bytes -delim ,"
           then ["name,id,capacity"; "poolA,1,1000000"]
           else [])
        true.

(** A configuration whose appliance section also sets [name], [id] and
    [svc]. *)
Definition conf_named : ConfigParser :=
  mkConf ∅
    [("INFLUXDB", {[ "address" := "influx.example"; "username" := "";
                     "password" := ""; "database" := "metrics" ]});
     ("SVC1", {[ "address" := "10.0.0.1"; "login" := "a"; "password" := "b";
                 "site" := "dc1"; "name" := "rack7"; "id" := "42";
                 "svc" := "other" ]})].

(** The store and the builders as [__main__] has them before its loop. *)
Definition store_main : State := mkState [∅; ∅] 0 [].
Definition pool_builder_main : SeriesBuilder :=
  mkBuilder 0 None pool_measurements pool_tags.
Definition volume_builder_main : SeriesBuilder :=
  mkBuilder 1 None volume_measurements volume_tags.

(** A configuration with a [DEFAULT] section and two appliances. *)
Definition conf_two : ConfigParser :=
  mkConf {[ "site" := "dc1"; "rack" := "r1" ]}
    [("INFLUXDB", {[ "address" := "influx.example"; "username" := "admin";
                     "password" := "secret"; "database" := "metrics" ]});
     ("SVC1", {[ "address" := "10.0.0.1"; "login" := "a"; "password" := "b" ]});
     ("SVC2", {[ "address" := "10.0.0.2"; "login" := "a"; "password" := "b";
                 "rack" := "r2" ]})].

(** A configuration whose appliance section has no [login]. *)
Definition conf_no_login : ConfigParser :=
  mkConf ∅
    [("INFLUXDB", {[ "address" := "influx.example"; "username" := "";
                     "password" := ""; "database" := "" ]});
     ("SVC1", {[ "address" := "10.0.0.1"; "password" := "b" ]})].

Definition row_tags_only : gmap string pyval :=
  {[ "mdisk_count" := PStr "4" ]}.

(** The header and the one pool line of [env_example]. *)
Definition listing_header : list field_text * string :=
  ([Unquoted "name"; Unquoted "id"; Unquoted "capacity"], "").

Definition listing_poolA : list field_text * string :=
  ([Unquoted "poolA"; Unquoted "1"; Unquoted "1000000"], "").

(** A collector to which no builder was added. *)
Definition collector_without_builder : SSHCollector :=
  mkCollector None "10.0.0.1" "a" "b".

(** An appliance that does not answer, and a database that does not. *)
Definition env_timed_out : Env :=
  mkEnv (λ _ _ _, TimedOut) (exec_command env_pool_only) true.

Definition env_no_database : Env :=
  mkEnv (λ _ _ _, Connected) (exec_command env_pool_only) false.

(** A configuration without any appliance. *)
Definition conf_influx_only : ConfigParser :=
  mkConf ∅
    [("INFLUXDB", {[ "address" := "influx.example"; "username" := "";
                     "password" := ""; "database" := "metrics" ]})].

(** * Properties *)

(** ** The monad *)

Lemma bind_ok {A B} (m : M A) (k : A → M B) s a s' :
  m s = (Ok a, s') → (m ≫= k) s = k a s'.
Proof. intros H. unfold mbind, M_bind. by rewrite H. Qed.

Lemma bind_raise {A B} (m : M A) (k : A → M B) s e s' :
  m s = (Raise e, s') → (m ≫= k) s = (Raise e, s').
Proof. intros H. unfold mbind, M_bind. by rewrite H. Qed.

Lemma bind_inv_ok {A B} (m : M A) (k : A → M B) s b s' :
  (m ≫= k) s = (Ok b, s') → ∃ a s1, m s = (Ok a, s1) ∧ k a s1 = (Ok b, s').
Proof.
  unfold mbind, M_bind. destruct (m s) as [[a|e] s1]; [eauto | discriminate].
Qed.

(** ** Dictionaries *)

Lemma copy_items_id (d : gmap string pyval) : copy_items d = d.
Proof.
  unfold copy_items.
  apply (map_fold_weak_ind (λ r m, r = m)); [done|].
  intros i x m r _ ->. done.
Qed.

Lemma contents_app_last ds d k snk :
  contents (mkState (ds ++ [d]) k snk) (length ds) = d.
Proof.
  unfold contents; simpl.
  rewrite lookup_app_r by lia. by rewrite Nat.sub_diag.
Qed.

Lemma insert_app_last (ds : list (gmap string pyval)) d d' :
  <[length ds := d']> (ds ++ [d]) = ds ++ [d'].
Proof.
  rewrite insert_app_r_alt by lia. by rewrite Nat.sub_diag.
Qed.

Lemma contents_old ds d k snk k' snk' l :
  (l < length ds)%nat →
  contents (mkState (ds ++ [d]) k snk) l = contents (mkState ds k' snk') l.
Proof. intros H. unfold contents; simpl. by rewrite lookup_app_l. Qed.

Lemma union_absorb (a b : gmap string pyval) : a ∪ (a ∪ b) = a ∪ b.
Proof. by rewrite (assoc_L (∪)), (idemp_L (∪)). Qed.

(** ** [parse] computes [points_of_row] *)

Lemma present_cons_in data m names v :
  data !! m = Some v → present data (m :: names) = m :: present data names.
Proof. intros H. unfold present. rewrite filter_cons_True; eauto. Qed.

Lemma present_cons_out data m names :
  data !! m = None → present data (m :: names) = present data names.
Proof.
  intros H. unfold present. rewrite filter_cons_False; [done|].
  rewrite H. by intros [? ?].
Qed.

Lemma parse_loop_run self data prefix names : ∀ series ds merged k snk,
  parse_loop self data prefix (length ds) names series (mkState (ds ++ [merged]) k snk) =
  match present data names with
  | [] => (Ok series, mkState (ds ++ [merged]) k snk)
  | ms =>
      match row_tags data (_tags self) ∅ with
      | Raise e => (Raise e, mkState (ds ++ [merged]) k snk)
      | Ok other =>
          (ps ← Res.traverse
                  (λ m, n ← py_int (default PNone (data !! m));
                        mret (point_for self prefix m (other ∪ merged) n)) ms;
           mret (series ++ ps),
           mkState (ds ++ [other ∪ merged]) k snk)
      end
  end.
Proof.
  induction names as [|m names IH]; intros series ds merged k snk; [done|].
  simpl. destruct (data !! m) as [v|] eqn:Hm.
  2: { rewrite (present_cons_out _ _ _ Hm). apply IH. }
  rewrite (present_cons_in _ _ _ _ Hm).
  destruct (row_tags data (_tags self) ∅) as [other|e] eqn:Hrow; [|done].
  unfold update, _build_series.
  unfold mbind, M_bind, result_bind, load, store, lift, mret, M_ret, result_ret.
  simpl dicts; simpl sent; simpl sink.
  rewrite contents_app_last, insert_app_last.
  simpl Res.traverse. rewrite Hm. simpl default.
  destruct (py_int v) as [n|e] eqn:Hv; [|done].
  rewrite contents_app_last, copy_items_id.
  fold (point_for self prefix m (other ∪ merged) n).
  rewrite IH, union_absorb.
  unfold mbind, result_bind, mret, result_ret.
  destruct (present data names) as [|m' ms'] eqn:Hp; [done|].
  generalize (m' :: ms'); intros l.
  destruct (Res.traverse _ l) as [ps|e]; simpl; [|done].
  by rewrite <- app_assoc.
Qed.

Theorem parse_run self data prefix s :
  parse self data prefix s =
  (points_of_row self (contents s (_extras_tags self)) data prefix,
   mkState (dicts s ++ [merged_after self (contents s (_extras_tags self)) data])
           (sent s) (sink s)).
Proof.
  unfold parse, mbind, M_bind, load, alloc. simpl.
  rewrite parse_loop_run. unfold points_of_row, merged_after.
  destruct (present data (_measurements self)) as [|m ms]; [done|].
  destruct (row_tags data (_tags self) ∅) as [other|e]; [|done].
  f_equal. unfold mbind, result_bind, mret, result_ret.
  generalize (m :: ms); intros l. simpl Res.bind at 3.
  by destruct (Res.traverse _ l).
Qed.

(** ** Results of loops *)

Lemma traverse_ok_inv {A B} (f : A → result B) xs ys :
  Res.traverse f xs = Ok ys → Forall2 (λ x y, f x = Ok y) xs ys.
Proof.
  revert ys. induction xs as [|x xs IH]; intros ys; simpl.
  - intros [= <-]. constructor.
  - destruct (f x) as [y|e] eqn:Hx; simpl; [|discriminate].
    destruct (Res.traverse f xs) as [ys'|e]; simpl; [|discriminate].
    intros [= <-]. constructor; auto.
Qed.

Lemma traverse_all_ok {A B} (f : A → result B) xs :
  (∀ x, x ∈ xs → ∃ y, f x = Ok y) → ∃ ys, Res.traverse f xs = Ok ys.
Proof.
  induction xs as [|x xs IH]; intros H; simpl; [eauto|].
  destruct (H x) as [y ->]; [left|]. simpl.
  destruct IH as [ys ->]; [intros; apply H; by right|]. simpl. eauto.
Qed.

Lemma traverse_raise {A B} (f : A → result B) xs x e :
  x ∈ xs → f x = Raise e → ∃ e', Res.traverse f xs = Raise e'.
Proof.
  intros Hin Hx. induction xs as [|a xs IH]; [by apply elem_of_nil in Hin|].
  simpl. apply elem_of_cons in Hin as [<-|Hin].
  - rewrite Hx. simpl. eauto.
  - destruct (f a); simpl; [|eauto].
    destruct (IH Hin) as [e' ->]. simpl. eauto.
Qed.

Lemma traverse_length {A B} (f : A → result B) xs ys :
  Res.traverse f xs = Ok ys → length ys = length xs.
Proof. intros H%traverse_ok_inv. symmetry. by eapply Forall2_length. Qed.

(** ** The comprehension over the tag names *)

Lemma row_tags_lookup data names : ∀ acc other,
  row_tags data names acc = Ok other →
  (∀ t, t ∈ names → is_Some (data !! t)) ∧
  (∀ k, other !! k = if decide (k ∈ names) then data !! k else acc !! k).
Proof.
  induction names as [|t names IH]; intros acc other; simpl.
  - intros [= <-]. split; [intros t []%elem_of_nil|done].
  - destruct (data !! t) as [v|] eqn:Ht; [|discriminate].
    intros [Hall Hlk]%IH. split.
    + intros t' [->|?]%elem_of_cons; [rewrite Ht; eauto|auto].
    + intros k. rewrite Hlk.
      destruct (decide (k ∈ names)) as [Hin|Hnin].
      * rewrite decide_True; [done|by right].
      * destruct (decide (k = t)) as [->|Hne].
        -- rewrite decide_True by left. by rewrite lookup_insert_eq.
        -- rewrite decide_False; [by rewrite lookup_insert_ne|].
           by intros [?|?]%elem_of_cons.
Qed.

Lemma row_tags_total data names acc :
  (∀ t, t ∈ names → is_Some (data !! t)) →
  ∃ other, row_tags data names acc = Ok other.
Proof.
  revert acc. induction names as [|t names IH]; intros acc H; simpl; [eauto|].
  destruct (H t) as [v ->]; [left|]. apply IH. intros; apply H; by right.
Qed.

Lemma row_tags_missing data names acc t :
  t ∈ names → data !! t = None →
  ∃ t', t' ∈ names ∧ data !! t' = None ∧
        row_tags data names acc = Raise (KeyError t').
Proof.
  revert acc. induction names as [|a names IH]; intros acc Hin Hnone.
  - by apply elem_of_nil in Hin.
  - simpl. destruct (data !! a) as [v|] eqn:Ha.
    + apply elem_of_cons in Hin as [->|Hin]; [congruence|].
      destruct (IH (<[a:=v]> acc) Hin Hnone) as (t' & ? & ? & ?).
      exists t'. split_and!; [by right|done|done].
    + exists a. split_and!; [left|done|done].
Qed.

(** ** What [parse] returns *)

Lemma elem_of_present data names m :
  m ∈ present data names ↔ is_Some (data !! m) ∧ m ∈ names.
Proof. unfold present. by rewrite list_elem_of_filter. Qed.

Lemma points_of_row_ok_inv self extras data prefix series :
  points_of_row self extras data prefix = Ok series →
  series = [] ∧ present data (_measurements self) = [] ∨
  ∃ other,
    row_tags data (_tags self) ∅ = Ok other ∧
    Forall2 (λ m p, ∃ n, py_int (default PNone (data !! m)) = Ok n ∧
                         p = point_for self prefix m (other ∪ extras) n)
            (present data (_measurements self)) series.
Proof.
  unfold points_of_row.
  destruct (present data (_measurements self)) as [|m ms] eqn:Hp.
  { intros [= <-]. by left. }
  unfold mbind at 1, result_bind.
  destruct (row_tags data (_tags self) ∅) as [other|e]; cbn [Res.bind]; [|discriminate].
  intros H%traverse_ok_inv. right. exists other. split; [done|].
  eapply Forall2_impl; [exact H|]. intros m' p. simpl.
  unfold mbind, result_bind, mret, result_ret.
  destruct (py_int _) as [n|e]; simpl; [|discriminate].
  intros [= <-]. eauto.
Qed.

Lemma points_of_row_total self extras data prefix :
  (∀ t, t ∈ _tags self → is_Some (data !! t)) →
  (∀ m v, m ∈ _measurements self → data !! m = Some v → int_convertible v) →
  ∃ series, points_of_row self extras data prefix = Ok series.
Proof.
  intros Htags Hint. unfold points_of_row.
  destruct (present data (_measurements self)) as [|m ms] eqn:Hp; [eauto|].
  destruct (row_tags_total data (_tags self) ∅ Htags) as [other ->].
  unfold mbind at 1, result_bind. cbn [Res.bind].
  rewrite <- Hp. apply traverse_all_ok.
  intros x [[v Hv] Hx]%elem_of_present. rewrite Hv. simpl.
  destruct (Hint x v Hx Hv) as [n ->].
  unfold mbind, result_bind, mret, result_ret. simpl. eauto.
Qed.

Lemma points_of_row_names self extras data prefix series :
  points_of_row self extras data prefix = Ok series →
  measurement <$> series = series_name prefix <$> present data (_measurements self).
Proof.
  intros [[-> ->]|(other & _ & H)]%points_of_row_ok_inv; [done|].
  induction H as [|m p ms ps (n & _ & ->) _ IH]; [done|].
  rewrite !fmap_cons. by rewrite IH.
Qed.

Lemma points_of_row_elem self extras data prefix series p :
  points_of_row self extras data prefix = Ok series → p ∈ series →
  ∃ other m n,
    row_tags data (_tags self) ∅ = Ok other ∧
    m ∈ _measurements self ∧
    py_int (default PNone (data !! m)) = Ok n ∧
    is_Some (data !! m) ∧
    p = point_for self prefix m (other ∪ extras) n.
Proof.
  intros [[-> _]|(other & Hrow & H)]%points_of_row_ok_inv Hp.
  { by apply elem_of_nil in Hp. }
  apply list_elem_of_lookup in Hp as [i Hi].
  destruct (Forall2_lookup_r _ _ _ _ _ H Hi) as (m & Hm & n & Hn & ->).
  apply list_elem_of_lookup_2, elem_of_present in Hm as [? ?].
  exists other, m, n. split_and!; auto.
Qed.

(** Closed decidable goals are settled by evaluation. *)
Ltac by_compute :=
  unfold has_tags, numeric_row;
  apply (bool_decide_unpack _); vm_compute; exact I.

#[export] Instance series_name_inj prefix : Inj (=) (=) (series_name prefix).
Proof.
  intros m1 m2 H. unfold series_name in H.
  apply (inj (String.append prefix)) in H. by apply (inj (String.append "_")) in H.
Qed.

Lemma count_named_names name series :
  count_named name series = length (filter (λ x, x = name) (measurement <$> series)).
Proof.
  unfold count_named. induction series as [|p series IH]; [done|].
  rewrite fmap_cons. destruct (decide (measurement p = name)) as [H|H].
  - rewrite !filter_cons_True by done. simpl. by rewrite IH.
  - by rewrite !filter_cons_False by done.
Qed.

Lemma count_image_NoDup {A B} `{EqDecision A, EqDecision B}
    (f : A → B) `{!Inj (=) (=) f} (l : list A) (a : A) :
  NoDup l →
  length (filter (λ y, y = f a) (f <$> l)) = if decide (a ∈ l) then 1%nat else 0%nat.
Proof.
  induction 1 as [|x l Hx Hl IH]; [done|].
  rewrite fmap_cons. destruct (decide (x = a)) as [->|Hne].
  - rewrite filter_cons_True by done. simpl. rewrite IH.
    rewrite decide_False by done. rewrite decide_True by left. done.
  - rewrite filter_cons_False by (intros ?%(inj f); done). rewrite IH.
    destruct (decide (a ∈ l)) as [Hin|Hnin].
    + rewrite decide_True; [done|by right].
    + rewrite decide_False; [done|]. by intros [?|?]%elem_of_cons.
Qed.

(** ** C1: one point per measurement name the row has *)

(** C1 (as amended).  Take a builder whose measurement names are pairwise
    distinct (both schemas are such), and a row that has every tag name of
    the schema and whose values under the measurement names all convert to
    integers.  Then [parse] returns normally; the measurement names of the
    points it returns are, in schema order, [prefix_m] for the names [m] of
    the schema that are keys of the row; so each such name has exactly one
    point and each name the row lacks has none. *)
Theorem parse_one_point_per_present_measurement self data prefix s :
  NoDup (_measurements self) →
  has_tags self data →
  numeric_row self data →
  ∃ series s',
    parse self data prefix s = (Ok series, s') ∧
    measurement <$> series
      = series_name prefix <$> present data (_measurements self) ∧
    ∀ m, m ∈ _measurements self →
         count_named (series_name prefix m) series
         = if decide (is_Some (data !! m)) then 1%nat else 0%nat.
Proof.
  intros Hnd Htags Hnum. rewrite parse_run.
  destruct (points_of_row_total self (contents s (_extras_tags self)) data prefix)
    as [series Hseries].
  { intros t Ht. by eapply Forall_forall in Htags. }
  { intros m v Hm Hv. unfold numeric_row in Hnum.
    rewrite Forall_forall in Hnum. specialize (Hnum m).
    rewrite Hv in Hnum. unfold convertible in Hnum. simpl in Hnum.
    unfold int_convertible. destruct (py_int v) as [n|e]; [eauto|].
    discriminate Hnum. apply elem_of_present. eauto. }
  exists series, (mkState
    (dicts s ++ [merged_after self (contents s (_extras_tags self)) data])
    (sent s) (sink s)).
  pose proof (points_of_row_names _ _ _ _ _ Hseries) as Hnames.
  split_and!; [by rewrite Hseries|done|].
  intros m Hm. rewrite count_named_names, Hnames.
  rewrite count_image_NoDup.
  - destruct (decide (is_Some (data !! m))) as [Hs|Hs].
    + rewrite decide_True; [done|]. by apply elem_of_present.
    + rewrite decide_False; [done|]. by intros [? _]%elem_of_present.
  - apply _.
  - unfold present. by apply NoDup_filter.
Qed.

Lemma pool_measurements_NoDup : NoDup pool_measurements.
Proof. by_compute. Qed.

Lemma volume_measurements_NoDup : NoDup volume_measurements.
Proof. by_compute. Qed.

Lemma parse_one_point_per_present_measurement_witness :
  ∃ series s',
    parse (pool_builder None) row_poolA "pool" store_prod = (Ok series, s') ∧
    measurement <$> series = ["pool_capacity"; "pool_free_capacity"] ∧
    count_named "pool_capacity" series = 1%nat ∧
    count_named "pool_used_capacity" series = 0%nat.
Proof.
  destruct (parse_one_point_per_present_measurement
              (pool_builder None) row_poolA "pool" store_prod)
    as (series & s' & Hrun & Hnames & Hcount).
  - by_compute.
  - by_compute.
  - by_compute.
  - exists series, s'. split_and!.
    + exact Hrun.
    + rewrite Hnames. vm_compute. reflexivity.
    + apply (Hcount "capacity"). by_compute.
    + apply (Hcount "used_capacity"). by_compute.
Defined.

(** C1 as the specification states it does not hold: the row below has
    both tag names and the measurement name [capacity], yet [parse] returns
    no point, because the value under [capacity] is not a number. *)
Lemma parse_not_numeric_returns_no_point :
  NoDup (_measurements (pool_builder None)) ∧
  has_tags (pool_builder None) row_not_numeric ∧
  "capacity" ∈ _measurements (pool_builder None) ∧
  is_Some (row_not_numeric !! "capacity") ∧
  ¬ ∃ series s',
      parse (pool_builder None) row_not_numeric "pool" store_prod = (Ok series, s') ∧
      count_named "pool_capacity" series = 1%nat.
Proof.
  split_and!.
  - exact pool_measurements_NoDup.
  - by_compute.
  - by_compute.
  - by_compute.
  - intros (series & s' & Hrun & _). vm_compute in Hrun. discriminate Hrun.
Qed.

(** ** C10: a missing tag name is a [KeyError] *)

(** C10.  When the row has at least one measurement name of the schema but
    lacks a tag name of the schema, [parse] raises [KeyError] on a tag name
    the row lacks: it returns no point and does not skip the tag. *)
Theorem parse_missing_tag_KeyError self data prefix s :
  (∃ m, m ∈ _measurements self ∧ is_Some (data !! m)) →
  (∃ t, t ∈ _tags self ∧ data !! t = None) →
  ∃ t s', t ∈ _tags self ∧ data !! t = None ∧
          parse self data prefix s = (Raise (KeyError t), s').
Proof.
  intros (m & Hm & Hsome) (t & Ht & Hnone). rewrite parse_run.
  destruct (row_tags_missing data (_tags self) ∅ t Ht Hnone)
    as (t' & Ht' & Hnone' & Hrow).
  exists t'. eexists. split_and!; [done|done|].
  f_equal. unfold points_of_row.
  destruct (present data (_measurements self)) as [|m' ms] eqn:Hp.
  - assert (m ∈ present data (_measurements self)) as Hin
      by by apply elem_of_present.
    rewrite Hp in Hin. by apply elem_of_nil in Hin.
  - by rewrite Hrow.
Qed.

Lemma parse_missing_tag_KeyError_witness :
  ∃ s', parse (pool_builder None) row_without_id "pool" store_prod
        = (Raise (KeyError "id"), s').
Proof.
  destruct (parse_missing_tag_KeyError (pool_builder None) row_without_id
              "pool" store_prod) as (t & s' & Ht & Hnone & Hrun).
  - exists "capacity". split; by_compute.
  - exists "id". split; [by_compute | vm_compute; reflexivity].
  - exists s'. rewrite Hrun. f_equal. f_equal.
    assert (t ∈ pool_tags) as Hin by exact Ht.
    unfold pool_tags in Hin.
    apply elem_of_cons in Hin as [->|Hin]; [vm_compute in Hnone; discriminate|].
    apply list_elem_of_singleton in Hin as ->. reflexivity.
Defined.

(** ** C2: the tags of a point *)

Lemma parse_keeps_dicts self data prefix s l :
  (l < length (dicts s))%nat →
  contents (parse self data prefix s).2 l = contents s l.
Proof.
  intros Hl. rewrite parse_run. simpl. destruct s as [ds k snk]. simpl in *.
  by apply contents_old.
Qed.

Lemma parse_tags self data prefix s series s' p :
  parse self data prefix s = (Ok series, s') → p ∈ series →
  ∃ other, row_tags data (_tags self) ∅ = Ok other ∧
           tags p = other ∪ contents s (_extras_tags self).
Proof.
  rewrite parse_run. intros [= Hrow _] Hp.
  destruct (points_of_row_elem _ _ _ _ _ _ Hrow Hp)
    as (other & m & n & Hother & _ & _ & _ & ->).
  eauto.
Qed.

(** C2.  Let the extra tags of a builder be the dictionary at address
    [extras] (what [add_extras_tags] stores).  Every point [parse] returns
    has, under each tag name of the schema, the value the row has under that
    name - also when the extra tags have that key - and, under every other
    key, what the extra tags have: the extra tags overwritten with the
    row-derived tags.  Whatever [parse] does, raise or return, the
    dictionary at [extras] holds afterwards what it held before. *)
Theorem parse_tags_extras_then_row self data prefix extras s :
  (extras < length (dicts s))%nat →
  let run := parse (add_extras_tags self extras) data prefix s in
  contents run.2 extras = contents s extras ∧
  ∀ series, run.1 = Ok series →
    ∀ p, p ∈ series →
      (∃ other, row_tags data (_tags self) ∅ = Ok other ∧
                tags p = other ∪ contents s extras) ∧
      (∀ k, k ∈ _tags self → tags p !! k = data !! k ∧ is_Some (data !! k)) ∧
      (∀ k, k ∉ _tags self → tags p !! k = contents s extras !! k).
Proof.
  intros Hl run. split; [by apply parse_keeps_dicts|].
  intros series Hrun p Hp.
  destruct (parse_tags (add_extras_tags self extras) data prefix s series run.2 p)
    as (other & Hother & Htags); [|done|].
  { rewrite <- Hrun. subst run. by destruct (parse _ _ _ _). }
  simpl in Hother, Htags.
  destruct (row_tags_lookup _ _ _ _ Hother) as [Hall Hlk].
  split_and!; [eauto| |].
  - intros k Hk. rewrite Htags.
    destruct (Hall k Hk) as [v Hv]. split; [|eauto].
    rewrite (lookup_union_Some_l _ _ _ v); [done|].
    by rewrite Hlk, decide_True.
  - intros k Hk. rewrite Htags, lookup_union_r; [done|].
    by rewrite Hlk, decide_False.
Qed.

Lemma parse_tags_extras_then_row_witness :
  ∃ p1 p2 s',
    parse (add_extras_tags (pool_builder None) 0) row_poolA "pool" store_shared_id
    = (Ok [p1; p2], s') ∧
    contents s' 0 = {[ "env" := PStr "prod"; "id" := PStr "appliance" ]} ∧
    tags p1 = {[ "env" := PStr "prod"; "id" := PStr "1"; "name" := PStr "poolA" ]} ∧
    tags p2 = tags p1.
Proof.
  destruct (parse_tags_extras_then_row (pool_builder None) row_poolA "pool" 0
              store_shared_id) as [Hkeep Hpoints]; [vm_compute; lia|].
  destruct (parse (add_extras_tags (pool_builder None) 0) row_poolA "pool"
              store_shared_id) as [r s'] eqn:Hrun.
  assert (∃ p1 p2, r = Ok [p1; p2]) as (p1 & p2 & ->).
  { apply (f_equal fst) in Hrun. vm_compute in Hrun. subst r. eauto. }
  simpl in Hkeep, Hpoints.
  destruct (Hpoints [p1; p2] eq_refl p1) as ((o1 & Ho1 & Ht1) & _); [left|].
  destruct (Hpoints [p1; p2] eq_refl p2) as ((o2 & Ho2 & Ht2) & _); [right; left|].
  exists p1, p2, s'. split_and!.
  - reflexivity.
  - rewrite Hkeep. vm_compute. reflexivity.
  - rewrite Ht1.
    assert (Ok o1 = Ok ({[ "name" := PStr "poolA"; "id" := PStr "1" ]}
                          : gmap string pyval)) as Hc
      by (rewrite <- Ho1; vm_compute; reflexivity).
    injection Hc as ->. vm_compute. reflexivity.
  - rewrite Ht1, Ht2. congruence.
Defined.

(** ** C5: the fixed timestamp *)

Lemma parse_time self data prefix s series s' p :
  parse self data prefix s = (Ok series, s') → p ∈ series →
  time p = if truthy (_fixed_time self) then _fixed_time self else None.
Proof.
  rewrite parse_run. intros [= Hrow _] Hp.
  destruct (points_of_row_elem _ _ _ _ _ _ Hrow Hp)
    as (other & m & n & _ & _ & _ & _ & ->).
  done.
Qed.

(** A fixed timestamp other than [0] is carried by every point. *)
Lemma parse_time_fixed self data prefix s series s' p t :
  _fixed_time self = Some t → t ≠ 0 →
  parse self data prefix s = (Ok series, s') → p ∈ series →
  time p = Some t.
Proof.
  intros Ht Hne Hrun Hp. rewrite (parse_time _ _ _ _ _ _ _ Hrun Hp), Ht.
  simpl. destruct (Z.eqb_spec t 0); [done|done].
Qed.

(** Without a fixed timestamp no point carries one. *)
Lemma parse_time_not_fixed self data prefix s series s' p :
  _fixed_time self = None →
  parse self data prefix s = (Ok series, s') → p ∈ series →
  time p = None.
Proof.
  intros Ht Hrun Hp. by rewrite (parse_time _ _ _ _ _ _ _ Hrun Hp), Ht.
Qed.

(** C5 (where the code departs from it).  A builder configured with the
    fixed timestamp [0] attaches no timestamp at all: [_build_series] tests
    the truth value of [_fixed_time], and [0] is false. *)
Theorem parse_fixed_time_zero_dropped self data prefix s series s' p :
  _fixed_time self = Some 0 →
  parse self data prefix s = (Ok series, s') → p ∈ series →
  time p = None.
Proof.
  intros Ht Hrun Hp. by rewrite (parse_time _ _ _ _ _ _ _ Hrun Hp), Ht.
Qed.

Lemma parse_fixed_time_zero_dropped_witness :
  ∃ p1 p2 s',
    parse (pool_builder (Some 0)) row_poolA "pool" store_prod = (Ok [p1; p2], s') ∧
    time p1 = None ∧ time p2 = None.
Proof.
  destruct (parse (pool_builder (Some 0)) row_poolA "pool" store_prod)
    as [r s'] eqn:Hrun.
  assert (∃ p1 p2, r = Ok [p1; p2]) as (p1 & p2 & ->).
  { apply (f_equal fst) in Hrun. vm_compute in Hrun. subst r. eauto. }
  exists p1, p2, s'. split_and!; [reflexivity| |].
  - apply (parse_fixed_time_zero_dropped (pool_builder (Some 0)) row_poolA
             "pool" store_prod [p1; p2] s'); [reflexivity|exact Hrun|left].
  - apply (parse_fixed_time_zero_dropped (pool_builder (Some 0)) row_poolA
             "pool" store_prod [p1; p2] s'); [reflexivity|exact Hrun|].
    right; left.
Defined.

(** ** C8: [parse] is a function of its inputs *)

Lemma points_of_row_configuration b1 b2 extras data prefix :
  same_configuration b1 b2 →
  points_of_row b1 extras data prefix = points_of_row b2 extras data prefix.
Proof.
  intros (Ht & Hm & Htags). unfold points_of_row, point_for.
  by rewrite Ht, Hm, Htags.
Qed.

(** C8.  Calling [parse] a second time, right after a first call with the
    same row and prefix, gives the same outcome as the first call: the same
    sequence of points, or the same exception.  More generally the outcome
    only depends on the row, the prefix, the builder's schema and fixed
    time, and the contents of its extra tags: any builder with these, in any
    store, yields the same outcome. *)
Theorem parse_same_inputs_same_points self data prefix s :
  (_extras_tags self < length (dicts s))%nat →
  let first := parse self data prefix s in
  (parse self data prefix first.2).1 = first.1 ∧
  ∀ self' s',
    same_configuration self self' →
    contents s' (_extras_tags self') = contents s (_extras_tags self) →
    (parse self' data prefix s').1 = first.1.
Proof.
  intros Hl first. subst first. split.
  - rewrite (parse_run self data prefix (parse self data prefix s).2).
    rewrite parse_keeps_dicts by done. by rewrite parse_run.
  - intros self' s' Hcfg Hext. rewrite !parse_run. simpl.
    rewrite Hext. symmetry. by apply points_of_row_configuration.
Qed.

Lemma parse_same_inputs_same_points_witness :
  (parse (pool_builder (Some 7)) row_poolA "pool"
     (parse (pool_builder (Some 7)) row_poolA "pool" store_prod).2).1
  = (parse (pool_builder (Some 7)) row_poolA "pool" store_prod).1 ∧
  Res.is_ok (parse (pool_builder (Some 7)) row_poolA "pool" store_prod).1 = true.
Proof.
  split.
  - destruct (parse_same_inputs_same_points (pool_builder (Some 7)) row_poolA
                "pool" store_prod) as [Hsame _]; [vm_compute; lia|exact Hsame].
  - vm_compute. reflexivity.
Defined.

(** ** C9: the database name *)

(** C9.  When the [INFLUXDB] section has its four keys, [get_influxdb]
    returns a configuration whose database name is [svc2influxdb] if the
    value of [database] is empty, and that value unchanged otherwise. *)
Theorem get_influxdb_database conf influx a u p d :
  section conf "INFLUXDB" = Ok influx →
  influx !! "address" = Some a →
  influx !! "username" = Some u →
  influx !! "password" = Some p →
  influx !! "database" = Some d →
  ∃ cfg, get_influxdb conf = Ok cfg ∧
         (d = "" → db_database cfg = "svc2influxdb") ∧
         (d ≠ "" → db_database cfg = d).
Proof.
  intros Hsec Ha Hu Hp Hd. unfold get_influxdb, getitem.
  rewrite Hsec. unfold mbind, result_bind. simpl.
  rewrite Ha, Hu, Hp, Hd. simpl. eexists. split; [reflexivity|]. simpl.
  destruct (String.eqb_spec d ""); split; intros; congruence.
Qed.

Lemma get_influxdb_returns conf cfg :
  get_influxdb conf = Ok cfg →
  ∃ influx d, section conf "INFLUXDB" = Ok influx ∧
              influx !! "database" = Some d ∧
              db_database cfg = if String.eqb d "" then "svc2influxdb" else d.
Proof.
  unfold get_influxdb, getitem, mbind, result_bind.
  destruct (section conf "INFLUXDB") as [influx|]; simpl; [|discriminate].
  destruct (influx !! "address"); simpl; [|discriminate].
  destruct (influx !! "username"); simpl; [|discriminate].
  destruct (influx !! "password"); simpl; [|discriminate].
  destruct (influx !! "database") as [d|] eqn:Hd; simpl; [|discriminate].
  intros [= <-]. exists influx, d. eauto.
Qed.

Lemma get_influxdb_database_witness :
  ∃ cfg, get_influxdb conf_example = Ok cfg ∧ db_database cfg = "svc2influxdb".
Proof.
  destruct (get_influxdb_database conf_example
              {[ "address" := "influx.example"; "username" := "";
                 "password" := ""; "database" := "" ]}
              "influx.example" "" "" "")
    as (cfg & Hcfg & Hempty & _); try (vm_compute; reflexivity).
  exists cfg. split; [exact Hcfg|]. apply Hempty. reflexivity.
Defined.

(** ** C6: parsing the detail output of one volume *)

Lemma append_cons c (a b : string) : String c a +:+ b = String c (a +:+ b).
Proof. reflexivity. Qed.

Lemma append_nil (b : string) : "" +:+ b = b.
Proof. reflexivity. Qed.

Lemma append_assoc (a b c : string) : (a +:+ b) +:+ c = a +:+ (b +:+ c).
Proof.
  induction a as [|x a IH]; [by rewrite !append_nil|].
  by rewrite !append_cons, IH.
Qed.

Lemma append_empty (a : string) : a +:+ "" = a.
Proof.
  induction a as [|x a IH]; [done|]. by rewrite append_cons, IH.
Qed.

Lemma field_char_inv c :
  field_char c = true →
  Csv.is_newline c = false ∧ Ascii.eqb c Csv.delimiter = false.
Proof.
  unfold field_char.
  destruct (Csv.is_newline c), (Ascii.eqb c Csv.delimiter); simpl;
    intros; split; congruence.
Qed.

(** Inside an unquoted field every field character is taken as it is. *)
Lemma feed_in_field s : ∀ rest acc fs,
  field_chars s = true →
  Csv.feed (Csv.mkReader Csv.IN_FIELD acc fs) (s +:+ rest)
  = Csv.feed (Csv.mkReader Csv.IN_FIELD (acc +:+ s) fs) rest.
Proof.
  induction s as [|c s IH]; intros rest acc fs Hs.
  - by rewrite append_nil, append_empty.
  - simpl in Hs. apply andb_prop in Hs as [Hc Hs].
    apply field_char_inv in Hc as (Hnl & Hd).
    rewrite append_cons.
    simpl. unfold Csv.parse_process_char. simpl. rewrite Hnl, Hd.
    unfold Csv.parse_add_char. simpl. rewrite IH by done.
    by rewrite append_assoc.
Qed.

(** Inside a quoted field a doubled quote stands for one quote and every
    other character for itself, up to the closing quote. *)
Lemma feed_in_quoted_field v : ∀ rest acc fs,
  Csv.feed (Csv.mkReader Csv.IN_QUOTED_FIELD acc fs)
    (double_quotes v +:+ String Csv.quotechar rest)
  = Csv.feed (Csv.mkReader Csv.QUOTE_IN_QUOTED_FIELD (acc +:+ v) fs) rest.
Proof.
  induction v as [|c v IH]; intros rest acc fs.
  - rewrite append_nil, append_empty. reflexivity.
  - simpl double_quotes. destruct (Ascii.eqb c Csv.quotechar) eqn:Hq.
    + apply Ascii.eqb_eq in Hq as ->. rewrite !append_cons.
      simpl. unfold Csv.parse_process_char, Csv.parse_add_char. simpl.
      rewrite IH. by rewrite append_assoc.
    + rewrite append_cons.
      simpl. unfold Csv.parse_process_char. simpl. rewrite Hq.
      unfold Csv.parse_add_char. simpl. rewrite IH. by rewrite append_assoc.
Qed.

Lemma feed_field st f rest fs :
  st = Csv.START_RECORD ∨ st = Csv.START_FIELD →
  field_ok f →
  ∃ st', after_field st st' (value_of f) ∧
         Csv.feed (Csv.mkReader st "" fs) (text_of f +:+ rest)
         = Csv.feed (Csv.mkReader st' (value_of f) fs) rest.
Proof.
  intros Hst Hf. destruct f as [v|v]; simpl in *.
  - destruct v as [|c v].
    { exists st. split; [right; right; done|done]. }
    exists Csv.IN_FIELD. split; [by left|].
    unfold unquoted in Hf. apply andb_prop in Hf as [Hs Hq].
    apply negb_true_iff in Hq.
    simpl in Hs. apply andb_prop in Hs as [Hc Hs].
    apply field_char_inv in Hc as (Hnl & Hd).
    rewrite append_cons.
    simpl. unfold Csv.parse_process_char, Csv.start_field.
    destruct Hst as [-> | ->]; simpl; rewrite Hnl, Hq, Hd;
      unfold Csv.parse_add_char; simpl; rewrite append_nil;
      change (String c v) with (String c "" +:+ v);
      by rewrite feed_in_field.
  - exists Csv.QUOTE_IN_QUOTED_FIELD. split; [right; by left|].
    rewrite append_assoc, append_cons, append_nil.
    unfold Csv.parse_process_char, Csv.start_field.
    destruct Hst as [-> | ->]; simpl; unfold Csv.goto; simpl;
      fold Csv.quotechar; by rewrite feed_in_quoted_field, append_nil.
Qed.

(** The delimiter closes the field and opens the next one. *)
Lemma feed_delimiter st st' v rest fs :
  st = Csv.START_RECORD ∨ st = Csv.START_FIELD →
  after_field st st' v →
  Csv.feed (Csv.mkReader st' v fs) ("," +:+ rest)
  = Csv.feed (Csv.mkReader Csv.START_FIELD "" (fs ++ [v])) rest.
Proof.
  intros Hst [-> | [-> | [-> ->]]]; [done|done|].
  by destruct Hst as [-> | ->].
Qed.

Lemma feed_newlines_eat eol fs :
  newlines eol = true →
  Csv.feed (Csv.mkReader Csv.EAT_CRNL "" fs) eol
  = Ok (Csv.mkReader Csv.START_RECORD "" fs).
Proof.
  induction eol as [|c eol IH]; intros H; [done|].
  simpl in H. apply andb_prop in H as [Hc H].
  simpl. unfold Csv.parse_process_char. simpl. rewrite Hc. by apply IH.
Qed.

(** The end of a line closes the field being read. *)
Lemma feed_end_of_field eol st' v fs :
  after_field Csv.START_FIELD st' v →
  newlines eol = true →
  Csv.feed (Csv.mkReader st' v fs) eol
  = Ok (Csv.mkReader Csv.START_RECORD "" (fs ++ [v])).
Proof.
  intros Hst Heol. destruct eol as [|c eol].
  - by destruct Hst as [-> | [-> | [-> ->]]].
  - simpl in Heol. apply andb_prop in Heol as [Hc Heol].
    assert (Ascii.eqb c Csv.quotechar = false ∧ Ascii.eqb c Csv.delimiter = false)
      as [Hq Hd].
    { clear -Hc. unfold Csv.is_newline in Hc.
      apply orb_prop in Hc as [Hc|Hc]; apply Ascii.eqb_eq in Hc as ->; done. }
    simpl. unfold Csv.parse_process_char, Csv.start_field.
    destruct Hst as [-> | [-> | [-> ->]]]; simpl; rewrite ?Hq, ?Hd, Hc;
      unfold Csv.parse_save_field; simpl; by apply feed_newlines_eat.
Qed.

Lemma feed_detail_line l :
  well_formed l →
  Csv.feed Csv.parse_reset (render l)
  = Ok (Csv.mkReader Csv.START_RECORD "" (record_of l.1)).
Proof.
  destruct l as [[|name value] eol]; unfold well_formed, render; simpl.
  - intros [Heol _]. destruct eol as [|c eol]; [done|].
    simpl in Heol. apply andb_prop in Heol as [Hc Heol].
    simpl. unfold Csv.parse_process_char. simpl. rewrite Hc.
    by apply feed_newlines_eat.
  - intros (Heol & Hname & Hvalue). unfold Csv.parse_reset.
    destruct (feed_field Csv.START_RECORD name ("," +:+ text_of value +:+ eol) [])
      as (st1 & Hst1 & ->); auto.
    rewrite (feed_delimiter Csv.START_RECORD) by auto.
    destruct (feed_field Csv.START_FIELD value eol ([] ++ [value_of name]))
      as (st2 & Hst2 & ->); auto.
    by rewrite feed_end_of_field.
Qed.

Lemma reader_detail_lines ls :
  Forall well_formed ls →
  Csv.reader (render <$> ls) = (record_of <$> ls.*1, None).
Proof.
  unfold Csv.reader. induction 1 as [|l ls Hl _ IH]; [done|].
  rewrite !fmap_cons. simpl. rewrite (feed_detail_line l Hl). simpl.
  by rewrite IH.
Qed.

Lemma detail_dict_records ls : ∀ acc,
  detail_dict (record_of <$> ls) acc
  = Ok (foldl (λ d l, match entry_of l with
                      | None => d
                      | Some (name, value) => <[name := PStr value]> d
                      end) acc ls).
Proof.
  induction ls as [|[|name value] ls IH]; intros acc; simpl; [done|apply IH..].
Qed.

Lemma row_of_details_snoc ls l :
  row_of_details (ls ++ [l])
  = match entry_of l with
    | None => row_of_details ls
    | Some (name, value) => <[name := PStr value]> (row_of_details ls)
    end.
Proof.
  unfold row_of_details. rewrite foldl_app. simpl.
  by destruct (entry_of l) as [[name value]|].
Qed.

Lemma row_of_details_lookup ls name value :
  Some (name, value) ∈ entry_of <$> ls →
  (∀ value', Some (name, value') ∈ entry_of <$> ls → value' = value) →
  row_of_details ls !! name = Some (PStr value).
Proof.
  induction ls as [|l ls IH] using rev_ind; intros Hin Huniq.
  { by apply elem_of_nil in Hin. }
  rewrite fmap_app in Hin, Huniq. rewrite row_of_details_snoc.
  simpl in Hin, Huniq.
  destruct (entry_of l) as [[name' value']|] eqn:Hl.
  - destruct (decide (name' = name)) as [->|Hne].
    + rewrite lookup_insert_eq. f_equal. f_equal.
      apply Huniq, elem_of_app. right. by apply list_elem_of_singleton.
    + rewrite lookup_insert_ne by done. apply IH.
      * apply elem_of_app in Hin as [?|Hin]; [done|].
        apply list_elem_of_singleton in Hin. congruence.
      * intros v Hv. apply Huniq, elem_of_app. by left.
  - apply IH.
    + apply elem_of_app in Hin as [?|Hin]; [done|].
      by apply list_elem_of_singleton in Hin.
    + intros v Hv. apply Huniq, elem_of_app. by left.
Qed.

Lemma row_of_details_keys ls name x :
  row_of_details ls !! name = Some x →
  ∃ value, x = PStr value ∧ Some (name, value) ∈ entry_of <$> ls.
Proof.
  induction ls as [|l ls IH] using rev_ind; [done|].
  rewrite row_of_details_snoc, fmap_app. simpl.
  destruct (entry_of l) as [[name' value']|] eqn:Hl.
  - destruct (decide (name' = name)) as [->|Hne].
    + rewrite lookup_insert_eq. intros [= <-]. exists value'. split; [done|].
      apply elem_of_app. right. by apply list_elem_of_singleton.
    + rewrite lookup_insert_ne by done.
      intros (v & ? & ?)%IH. exists v. split; [done|]. apply elem_of_app. by left.
  - intros (v & ? & ?)%IH. exists v. split; [done|]. apply elem_of_app. by left.
Qed.

Lemma row_of_details_blank ls :
  row_of_details ls = row_of_details (filter (λ l, l ≠ Blank) ls).
Proof.
  induction ls as [|l ls IH] using rev_ind; [done|].
  rewrite filter_app, !row_of_details_snoc. destruct l as [|name value].
  - rewrite filter_cons_False by (by intros H; apply H).
    rewrite filter_nil, app_nil_r. exact IH.
  - rewrite filter_cons_True by done. rewrite filter_nil.
    by rewrite row_of_details_snoc, IH.
Qed.

(** C6.  Let the detail command of a volume print lines that are each
    either blank or [fieldName,value], each of the two parts being written
    as it is (then it holds no comma and no line break and does not start
    with a double quote) or between double quotes, and each line ending
    with any line terminator or none.  Then [_get_volume_details] returns
    the row that maps each field name to its value: the keys of the row are
    the field names, a name that occurs with one value maps to it, and
    dropping the blank lines does not change the row. *)
Theorem get_volume_details_row env self identifier s ls :
  Forall well_formed ls →
  exec_command env (sent s) (_address self)
    ("lsvdisk -bytes -delim , " +:+ format_s identifier) = render <$> ls →
  ∃ row,
    _get_volume_details env self identifier s
    = (Ok row, mkState (dicts s) (S (sent s)) (sink s)) ∧
    row = row_of_details ls.*1 ∧
    row = row_of_details (filter (λ l, l ≠ Blank) ls.*1) ∧
    (∀ name value,
       Some (name, value) ∈ entry_of <$> ls.*1 →
       (∀ value', Some (name, value') ∈ entry_of <$> ls.*1 → value' = value) →
       row !! name = Some (PStr value)) ∧
    (∀ name x, row !! name = Some x →
               ∃ value, x = PStr value ∧ Some (name, value) ∈ entry_of <$> ls.*1).
Proof.
  intros Hwf Hout. exists (row_of_details ls.*1). split_and!.
  - unfold _get_volume_details, _send_command, mbind, M_bind, lift.
    rewrite Hout, (reader_detail_lines ls Hwf).
    unfold detail_rows, mbind, result_bind. simpl.
    by rewrite detail_dict_records.
  - done.
  - apply row_of_details_blank.
  - apply row_of_details_lookup.
  - apply row_of_details_keys.
Qed.

Lemma get_volume_details_row_witness :
  ∃ s', _get_volume_details env_example (collector_example (pool_builder None))
          (PStr "1") initial
        = (Ok {[ "id" := PStr "1"; "capacity" := PStr "1024";
                 "name" := PStr "vol1" ]}, s').
Proof.
  destruct (get_volume_details_row env_example
              (collector_example (pool_builder None)) (PStr "1") initial
              [(Field (Unquoted "id") (Unquoted "1"), ""); (Blank, "");
               (Field (Unquoted "capacity") (Unquoted "1024"), "");
               (Field (Unquoted "name") (Unquoted "vol1"), "")])
    as (row & Hrun & Hrow & _).
  - repeat constructor.
  - vm_compute. reflexivity.
  - exists (mkState [] 1 []). rewrite Hrun, Hrow. vm_compute. reflexivity.
Defined.

(** A value written between quotes may hold the delimiter. *)
Example detail_quoted_value :
  let line := (Field (Unquoted "name") (Quoted "vol,1"), "") in
  well_formed line ∧
  Csv.reader [render line] = ([["name"; "vol,1"]], None).
Proof. split; [by repeat constructor|]. vm_compute. reflexivity. Qed.

(** ** The collectors *)

Lemma keeps_bind {A B} (m : M A) (k : A → M B) :
  keeps_dicts_and_sink m → (∀ a, keeps_dicts_and_sink (k a)) →
  keeps_dicts_and_sink (m ≫= k).
Proof.
  intros Hm Hk s. unfold mbind, M_bind.
  specialize (Hm s). destruct (m s) as [[a|e] s1]; simpl in *; [|done].
  destruct (Hk a s1) as [-> ->]. done.
Qed.

Lemma keeps_ret {A} (a : A) : keeps_dicts_and_sink (mret a : M A).
Proof. by intros s. Qed.

Lemma keeps_raise {A} e : keeps_dicts_and_sink (raise e : M A).
Proof. by intros s. Qed.

Lemma keeps_lift {A} (r : result A) : keeps_dicts_and_sink (lift r).
Proof. by intros s. Qed.

Lemma keeps_send_command env self command :
  keeps_dicts_and_sink (_send_command env self command).
Proof. by intros s. Qed.

Lemma keeps_for_each {A B} (f : A → M B) xs :
  (∀ x, keeps_dicts_and_sink (f x)) → keeps_dicts_and_sink (for_each f xs).
Proof.
  intros Hf. induction xs as [|x xs IH]; simpl; [apply keeps_ret|].
  apply keeps_bind; [done|]. intros y.
  apply keeps_bind; [done|]. intros ys. apply keeps_ret.
Qed.

Lemma keeps_for_rows {A B} (f : A → M B) rs :
  (∀ x, keeps_dicts_and_sink (f x)) → keeps_dicts_and_sink (for_rows f rs).
Proof.
  intros Hf. unfold for_rows. apply keeps_bind; [by apply keeps_for_each|].
  intros ys. destruct rs.2; [apply keeps_raise|apply keeps_ret].
Qed.

Lemma keeps_get_volume_details env self identifier :
  keeps_dicts_and_sink (_get_volume_details env self identifier).
Proof.
  unfold _get_volume_details. apply keeps_bind; [apply keeps_send_command|].
  intros stdout. apply keeps_lift.
Qed.

Lemma keeps_raw_rows env kind self : keeps_dicts_and_sink (raw_rows env kind self).
Proof.
  destruct kind; simpl; unfold Pool_rows, Volume_rows;
    (apply keeps_bind; [apply keeps_send_command|]); intros stdout;
    apply keeps_for_rows; intros line; [apply keeps_ret|].
  apply keeps_bind; [apply keeps_lift|]. intros i.
  apply keeps_get_volume_details.
Qed.

Lemma for_each_ret {A} (xs : list A) s : for_each mret xs s = (Ok xs, s).
Proof.
  induction xs as [|x xs IH]; [done|].
  simpl. unfold mbind, M_bind. simpl. rewrite IH. done.
Qed.

(** The comprehension over the rows, in a store where the extra tags of the
    builder exist: each row yields what [points_of_row] says, and the store
    only grows. *)
Lemma for_each_parse b prefix rows : ∀ s,
  (_extras_tags b < length (dicts s))%nat →
  ∃ extra,
    for_each (λ row, parse b row prefix) rows s
    = (Res.traverse
         (λ row, points_of_row b (contents s (_extras_tags b)) row prefix) rows,
       mkState (dicts s ++ extra) (sent s) (sink s)).
Proof.
  induction rows as [|row rows IH]; intros s Hl.
  { exists []. simpl. rewrite app_nil_r. by destruct s. }
  simpl. unfold mbind at 1, M_bind. rewrite parse_run.
  set (extras := contents s (_extras_tags b)).
  destruct (points_of_row b extras row prefix) as [x|e] eqn:Hrow; simpl.
  2: { eexists [_]. reflexivity. }
  set (s1 := mkState _ _ _).
  destruct (IH s1) as [extra Hrest].
  { subst s1. simpl. rewrite length_app. lia. }
  assert (contents s1 (_extras_tags b) = extras) as Hsame.
  { subst s1 extras. destruct s. by apply contents_old. }
  rewrite Hsame in Hrest.
  unfold mbind, M_bind. rewrite Hrest. subst s1. simpl.
  exists (merged_after b extras row :: extra).
  rewrite <- app_assoc. simpl.
  destruct (Res.traverse _ rows); done.
Qed.

Lemma contents_same_dicts s1 s2 l :
  dicts s1 = dicts s2 → contents s1 l = contents s2 l.
Proof. unfold contents. by intros ->. Qed.

Lemma builder_parse_some self b prefix :
  _builder self = Some b →
  builder_parse self prefix = λ row, parse b row prefix.
Proof. unfold builder_parse. by intros ->. Qed.

Lemma Pool_rows_run env self s :
  let rs := Csv.DictReader
              (exec_command env (sent s) (_address self) "lsmdiskgrp -bytes -delim ,") in
  Pool_rows env self s
  = (match rs.2 with Some e => Raise e | None => Ok rs.1 end,
     mkState (dicts s) (S (sent s)) (sink s)).
Proof.
  intros rs. unfold Pool_rows, for_rows, mbind, M_bind, _send_command.
  rewrite for_each_ret. fold rs. by destruct rs.2.
Qed.

Lemma Pool_collect_run env self b s :
  _builder self = Some b →
  (_extras_tags b < length (dicts s))%nat →
  let rs := Csv.DictReader
              (exec_command env (sent s) (_address self) "lsmdiskgrp -bytes -delim ,") in
  ∃ extra,
    Pool_collect env self s
    = (match Res.traverse
               (λ row, points_of_row b (contents s (_extras_tags b)) row "pool")
               rs.1
       with
       | Ok xs => match rs.2 with Some e => Raise e | None => Ok xs end
       | Raise e => Raise e
       end,
       mkState (dicts s ++ extra) (S (sent s)) (sink s)).
Proof.
  intros Hb Hl rs. unfold Pool_collect, for_rows.
  rewrite (builder_parse_some _ _ _ Hb).
  unfold mbind, M_bind, _send_command. fold rs.
  destruct (for_each_parse b "pool" rs.1
              (mkState (dicts s) (S (sent s)) (sink s)) Hl) as [extra ->].
  exists extra. simpl.
  rewrite (contents_same_dicts _ s) by done.
  destruct (Res.traverse _ rs.1); [|done]. by destruct rs.2.
Qed.

Lemma Volume_collect_run env self b s :
  _builder self = Some b →
  (_extras_tags b < length (dicts s))%nat →
  ∃ extra,
    Volume_collect env self s
    = (rows ← (Volume_rows env self s).1;
       Res.traverse
         (λ row, points_of_row b (contents s (_extras_tags b)) row "volume") rows,
       mkState (dicts s ++ extra) (sent (Volume_rows env self s).2) (sink s)).
Proof.
  intros Hb Hl.
  pose proof (keeps_raw_rows env Volume self s) as [Hd Hs]. simpl in Hd, Hs.
  assert (Volume_collect env self s
          = match Volume_rows env self s with
            | (Ok rows, s1) => for_each (λ row, parse b row "volume") rows s1
            | (Raise e, s1) => (Raise e, s1)
            end) as ->.
  { unfold Volume_collect, Volume_rows. rewrite (builder_parse_some _ _ _ Hb).
    unfold mbind, M_bind, _send_command.
    by destruct (for_rows _ _ _) as [[rows|e] s1]. }
  destruct (Volume_rows env self s) as [[rows|e] s1]; simpl in *.
  2: { exists []. rewrite app_nil_r. unfold mbind, result_bind. simpl.
       rewrite <- Hd, <- Hs. by destruct s1. }
  destruct (for_each_parse b "volume" rows s1) as [extra ->]; [by rewrite Hd|].
  exists extra. rewrite (contents_same_dicts s1 s) by done.
  by rewrite Hd, Hs.
Qed.

(** [collect] returns normally exactly when the raw rows can be read and
    every one of them can be parsed; it then returns the points of each row,
    row by row.  The store only grows and the sink is not touched. *)
Lemma collect_run env kind self b s :
  _builder self = Some b →
  (_extras_tags b < length (dicts s))%nat →
  (∃ extra, dicts (collect env kind self s).2 = dicts s ++ extra) ∧
  sink (collect env kind self s).2 = sink s ∧
  ∀ xs, (collect env kind self s).1 = Ok xs ↔
        ∃ rows, (raw_rows env kind self s).1 = Ok rows ∧
                Res.traverse
                  (λ row, points_of_row b (contents s (_extras_tags b)) row
                            (prefix_of kind)) rows = Ok xs.
Proof.
  intros Hb Hl. destruct kind; simpl.
  - destruct (Pool_collect_run env self b s Hb Hl) as [extra ->].
    rewrite Pool_rows_run. simpl.
    split; [by exists extra|]. split; [done|]. intros xs.
    destruct (Res.traverse _ _) as [ys|e] eqn:Hys;
      destruct (Csv.DictReader _).2 as [e'|]; split.
    all: try discriminate.
    all: try by intros (rows & [=] & _).
    + intros [= <-]. eauto.
    + intros (rows & [= <-] & Hxs). congruence.
    + intros (rows & [= <-] & Hxs). congruence.
  - destruct (Volume_collect_run env self b s Hb Hl) as [extra ->]. simpl.
    split; [by exists extra|]. split; [done|]. intros xs.
    unfold mbind, result_bind.
    destruct (Volume_rows env self s).1 as [rows|e]; simpl; split.
    + intros Hxs. eauto.
    + by intros (rows' & [= <-] & Hxs).
    + discriminate.
    + by intros (rows' & [=] & _).
Qed.

(** ** C3: the shape of what [collect] returns *)

(** C3 (as amended).  When [collect] returns, it returns one element per
    raw row, in the order of the rows, and the element of a row is the
    sequence of points [parse] returns for that row: a list of lists of
    points.  It returns normally exactly when the rows can be read and
    [parse] succeeds on each of them. *)
Theorem collect_one_series_per_row env kind self b s :
  _builder self = Some b →
  (_extras_tags b < length (dicts s))%nat →
  (∀ xs, (collect env kind self s).1 = Ok xs →
     ∃ rows,
       (raw_rows env kind self s).1 = Ok rows ∧
       length xs = length rows ∧
       Forall2 (λ row serie, (parse b row (prefix_of kind) s).1 = Ok serie) rows xs ∧
       repr xs = PyList ((λ serie : list SeriesPoint, PyList (PyPoint <$> serie)) <$> xs)) ∧
  (∀ rows,
     (raw_rows env kind self s).1 = Ok rows →
     Forall (λ row, Res.is_ok (parse b row (prefix_of kind) s).1 = true) rows →
     ∃ xs, (collect env kind self s).1 = Ok xs).
Proof.
  intros Hb Hl. destruct (collect_run env kind self b s Hb Hl) as (_ & _ & Hiff).
  split.
  - intros xs (rows & Hrows & Hxs)%Hiff. exists rows. split_and!; [done| | |].
    + by apply traverse_length in Hxs.
    + apply traverse_ok_inv in Hxs. eapply Forall2_impl; [exact Hxs|].
      intros row serie Hrow. by rewrite parse_run.
    + unfold repr, repr_list. f_equal.
  - intros rows Hrows Hall.
    destruct (traverse_all_ok
                (λ row, points_of_row b (contents s (_extras_tags b)) row
                          (prefix_of kind)) rows) as [xs Hxs].
    { intros row Hrow. rewrite Forall_forall in Hall. specialize (Hall row Hrow).
      rewrite parse_run in Hall. simpl in Hall.
      destruct (points_of_row _ _ _ _); [eauto|discriminate]. }
    exists xs. apply Hiff. eauto.
Qed.

Lemma collect_one_series_per_row_witness :
  ∃ p s',
    collect env_example Pool (collector_example (pool_builder None)) store_prod
    = (Ok [[p]], s') ∧
    (parse (pool_builder None)
       {[ "name" := PStr "poolA"; "id" := PStr "1"; "capacity" := PStr "1000000" ]}
       "pool" store_prod).1 = Ok [p].
Proof.
  pose (b := pool_builder None).
  destruct (collect_one_series_per_row env_example Pool (collector_example b)
              b store_prod eq_refl) as [Hshape _]; [vm_compute; lia|].
  destruct (collect env_example Pool (collector_example b) store_prod)
    as [r s'] eqn:Hrun.
  assert (∃ p, r = Ok [[p]]) as (p & ->).
  { apply (f_equal fst) in Hrun. vm_compute in Hrun. subst r. eauto. }
  destruct (Hshape [[p]] eq_refl) as (rows & Hrows & _ & Hall & _).
  exists p, s'. split; [exact Hrun|].
  assert (rows = [{[ "name" := PStr "poolA"; "id" := PStr "1";
                     "capacity" := PStr "1000000" ]}]) as ->.
  { assert (Ok rows = Ok [({[ "name" := PStr "poolA"; "id" := PStr "1";
                              "capacity" := PStr "1000000" ]}
                            : gmap string pyval)]) as Hc
      by (rewrite <- Hrows; vm_compute; reflexivity).
    by injection Hc. }
  apply Forall2_cons_1 in Hall as [Hrow _]. exact Hrow.
Defined.

(** The value [collect] returns for one pool row is a list holding one list,
    not a list of points. *)
Lemma collect_returns_nested_lists :
  ∃ p s',
    collect env_example Pool (collector_example (pool_builder None)) store_prod
    = (Ok [[p]], s') ∧
    ¬ flat_sequence_of_points (repr [[p]]).
Proof.
  destruct (collect env_example Pool (collector_example (pool_builder None))
              store_prod) as [r s'] eqn:Hrun.
  assert (∃ p, r = Ok [[p]]) as (p & ->).
  { apply (f_equal fst) in Hrun. vm_compute in Hrun. subst r. eauto. }
  exists p, s'. split; [done|].
  intros [points Hpoints]. unfold repr, repr_list in Hpoints. simpl in Hpoints.
  injection Hpoints as Hpoints. destruct points as [|q points]; discriminate.
Qed.

(** ** C4: a value that is not a number aborts the run *)

Lemma py_int_error v e : py_int v = Raise e → parse_error e.
Proof.
  destruct v as [lit|]; simpl.
  - destruct (int_of_string lit); [discriminate|].
    intros [= <-]. right. eauto.
  - intros [= <-]. by left.
Qed.

Lemma not_convertible_raises v :
  convertible v = false → ∃ e, py_int v = Raise e ∧ parse_error e.
Proof.
  unfold convertible. destruct (py_int v) as [n|e] eqn:Hv; [discriminate|].
  intros _. exists e. split; [done|]. by eapply py_int_error.
Qed.

Lemma traverse_raise_inv {A B} (f : A → result B) xs e :
  Res.traverse f xs = Raise e → ∃ x, x ∈ xs ∧ f x = Raise e.
Proof.
  induction xs as [|a xs IH]; simpl; [discriminate|].
  destruct (f a) as [y|e'] eqn:Ha; simpl.
  - destruct (Res.traverse f xs) as [ys|e'']; simpl; [discriminate|].
    intros [= <-]. destruct IH as (x & ? & ?); [done|].
    exists x. split; [by right|done].
  - intros [= <-]. exists a. split; [left|done].
Qed.

Lemma points_of_row_not_numeric self extras data prefix :
  not_numeric self data →
  ∃ e, points_of_row self extras data prefix = Raise e ∧
       (has_tags self data → parse_error e).
Proof.
  intros (m & v & Hm & Hv & Hconv). unfold points_of_row.
  assert (m ∈ present data (_measurements self)) as Hin
    by (apply elem_of_present; eauto).
  destruct (present data (_measurements self)) as [|m0 ms] eqn:Hp.
  { by apply elem_of_nil in Hin. }
  destruct (row_tags data (_tags self) ∅) as [other|e] eqn:Hrow.
  2: { exists e. split; [done|]. intros Htags.
       destruct (row_tags_total data (_tags self) ∅) as [other Hother].
       { intros t Ht. by eapply Forall_forall in Htags. }
       congruence. }
  unfold mbind at 1, result_bind. cbn [Res.bind].
  destruct (not_convertible_raises v Hconv) as (e0 & He0 & _).
  destruct (traverse_raise
              (λ m, n ← py_int (default PNone (data !! m));
                    mret (point_for self prefix m (other ∪ extras) n))
              (m0 :: ms) m e0 Hin) as [e He].
  { rewrite Hv. simpl. by rewrite He0. }
  exists e. split; [done|]. intros _.
  apply traverse_raise_inv in He as (x & _ & Hx).
  unfold mbind, result_bind in Hx.
  destruct (py_int (default PNone (data !! x))) as [n|e'] eqn:Hpy; simpl in Hx.
  - discriminate.
  - injection Hx as <-. by eapply py_int_error.
Qed.

(** *** Nothing reaches the sink during collection *)

Lemma keeps_sink_bind {A B} (m : M A) (k : A → M B) :
  keeps_sink m → (∀ a, keeps_sink (k a)) → keeps_sink (m ≫= k).
Proof.
  intros Hm Hk s. unfold mbind, M_bind.
  specialize (Hm s). destruct (m s) as [[a|e] s1]; simpl in *; [|done].
  by rewrite Hk.
Qed.

Lemma keeps_sink_ret {A} (a : A) : keeps_sink (mret a : M A).
Proof. by intros s. Qed.

Lemma keeps_sink_raise {A} e : keeps_sink (raise e : M A).
Proof. by intros s. Qed.

Lemma keeps_sink_lift {A} (r : result A) : keeps_sink (lift r).
Proof. by intros s. Qed.

Lemma keeps_sink_alloc d : keeps_sink (alloc d).
Proof. by intros s. Qed.

Lemma keeps_sink_load l : keeps_sink (load l).
Proof. by intros s. Qed.

Lemma keeps_sink_store l d : keeps_sink (store l d).
Proof. by intros s. Qed.

Lemma keeps_sink_parse self data prefix : keeps_sink (parse self data prefix).
Proof. intros s. by rewrite parse_run. Qed.

Lemma keeps_sink_weaken {A} (m : M A) : keeps_dicts_and_sink m → keeps_sink m.
Proof. intros H s. apply H. Qed.

Create HintDb keeps discriminated.
#[local] Hint Resolve keeps_sink_bind keeps_sink_ret keeps_sink_raise
  keeps_sink_lift keeps_sink_alloc keeps_sink_load keeps_sink_store
  keeps_sink_parse : keeps.

Lemma keeps_sink_for_each {A B} (f : A → M B) xs :
  (∀ x, keeps_sink (f x)) → keeps_sink (for_each f xs).
Proof.
  intros Hf. induction xs as [|x xs IH]; simpl; auto 10 with keeps.
Qed.

Lemma keeps_sink_collect env kind self : keeps_sink (collect env kind self).
Proof.
  assert (∀ prefix row, keeps_sink (builder_parse self prefix row)) as Hparse.
  { intros prefix row. unfold builder_parse.
    destruct (_builder self); auto with keeps. }
  destruct kind; simpl.
  - unfold Pool_collect, for_rows.
    apply keeps_sink_bind; [by apply keeps_sink_weaken, keeps_send_command|].
    intros stdout. apply keeps_sink_bind; [by apply keeps_sink_for_each|].
    intros ys. destruct (Csv.DictReader stdout).2; auto with keeps.
  - unfold Volume_collect.
    apply keeps_sink_bind; [by apply keeps_sink_weaken, keeps_send_command|].
    intros stdout. apply keeps_sink_bind.
    + apply keeps_sink_weaken, keeps_for_rows. intros line.
      apply keeps_bind; [apply keeps_lift|]. intros i.
      apply keeps_get_volume_details.
    + intros rows. by apply keeps_sink_for_each.
Qed.

Lemma keeps_sink_get_svc_step conf name : keeps_sink (get_svc_step conf name).
Proof. unfold get_svc_step. auto 20 with keeps. Qed.

Lemma keeps_sink_SSHCollector_init env svc : keeps_sink (SSHCollector_init env svc).
Proof. unfold SSHCollector_init. destruct (connect _ _ _ _); auto with keeps. Qed.

Lemma keeps_sink_main_step env acc next :
  keeps_sink next → keeps_sink (main_step env acc next).
Proof.
  intros Hnext. destruct acc as [[pb vb] series]. unfold main_step.
  apply keeps_sink_bind; [done|]. intros svc.
  apply keeps_sink_bind; [apply keeps_sink_SSHCollector_init|]. intros c1.
  apply keeps_sink_bind; [apply keeps_sink_SSHCollector_init|]. intros c2.
  apply keeps_sink_bind; [apply keeps_sink_collect|]. intros xs.
  apply keeps_sink_bind; [apply keeps_sink_collect|]. intros ys.
  apply keeps_sink_ret.
Qed.

Lemma keeps_sink_main_loop env gen : ∀ acc,
  Forall keeps_sink gen → keeps_sink (main_loop env acc gen).
Proof.
  induction gen as [|next gen IH]; intros acc Hgen; simpl.
  - apply keeps_sink_ret.
  - apply Forall_cons in Hgen as [Hnext Hgen].
    apply keeps_sink_bind; [by apply keeps_sink_main_step|].
    intros acc'. by apply IH.
Qed.

Lemma keeps_sink_collect_all env conf fixed now :
  keeps_sink (collect_all env conf fixed now).
Proof.
  unfold collect_all, PoolSeriesBuilder, VolumeSeriesBuilder, SeriesBuilder_init.
  apply keeps_sink_bind; [auto 10 with keeps|]. intros pb.
  apply keeps_sink_bind; [auto 10 with keeps|]. intros vb.
  apply keeps_sink_main_loop. unfold get_svc.
  apply Forall_fmap, Forall_forall. intros name _.
  apply keeps_sink_get_svc_step.
Qed.

Lemma write_all_run db series s :
  write_all db series s
  = (Ok (), mkState (dicts s) (sent s)
              (sink s ++ ((λ serie, WritePoints db serie "ms") <$> series))).
Proof.
  revert s. induction series as [|serie series IH]; intros s; simpl.
  - rewrite app_nil_r. by destruct s.
  - unfold mbind, M_bind, log. simpl. rewrite IH. simpl.
    by rewrite <- app_assoc.
Qed.

(** The whole run: the sink is only called once the collection has
    returned, first to create the database, then once per element of the
    collected series. *)
Lemma main_run env conf fixed now s :
  main env conf fixed now s =
  match get_influxdb conf with
  | Raise e => (Raise e, s)
  | Ok configuration =>
      match collect_all env conf fixed now s with
      | (Raise e, s1) => (Raise e, s1)
      | (Ok series, s1) =>
          if database_reachable env
          then (Ok (),
                mkState (dicts s1) (sent s1)
                  (sink s1 ++ CreateDatabase (db_database configuration)
                     :: ((λ serie, WritePoints (db_database configuration) serie "ms")
                           <$> series)))
          else (Raise (SystemExit 1), s1)
      end
  end.
Proof.
  unfold main, mbind at 1, M_bind, lift.
  destruct (get_influxdb conf) as [cfg|e]; [|done].
  unfold mbind at 1, M_bind.
  destruct (collect_all env conf fixed now s) as [[series|e] s1]; [|done].
  unfold mbind, M_bind, create_database.
  destruct (database_reachable env); [|done].
  unfold log. rewrite write_all_run. simpl. by rewrite <- app_assoc.
Qed.

Lemma points_of_row_raise_has_tags self extras data prefix e :
  points_of_row self extras data prefix = Raise e →
  has_tags self data → parse_error e.
Proof.
  unfold points_of_row. intros Hrun Htags.
  destruct (present data (_measurements self)) as [|m0 ms]; [discriminate|].
  destruct (row_tags_total data (_tags self) ∅) as [other Hother].
  { intros t Ht. by eapply Forall_forall in Htags. }
  rewrite Hother in Hrun. unfold mbind at 1, result_bind in Hrun.
  cbn [Res.bind] in Hrun.
  apply traverse_raise_inv in Hrun as (x & _ & Hx).
  unfold mbind, result_bind in Hx.
  destruct (py_int (default PNone (data !! x))) as [n|e'] eqn:Hpy; simpl in Hx.
  - discriminate.
  - injection Hx as <-. by eapply py_int_error.
Qed.

(** Once the raw rows are read, [collect] is the comprehension over them. *)
Lemma collect_result env kind self b s rows :
  _builder self = Some b →
  (_extras_tags b < length (dicts s))%nat →
  (raw_rows env kind self s).1 = Ok rows →
  (collect env kind self s).1
  = Res.traverse
      (λ row, points_of_row b (contents s (_extras_tags b)) row (prefix_of kind))
      rows.
Proof.
  intros Hb Hl Hrows. destruct kind; simpl in *.
  - destruct (Pool_collect_run env self b s Hb Hl) as [extra ->].
    rewrite Pool_rows_run in Hrows. simpl in *.
    destruct (Csv.DictReader _).2; [discriminate|].
    injection Hrows as <-. by destruct (Res.traverse _ _).
  - destruct (Volume_collect_run env self b s Hb Hl) as [extra ->]. simpl.
    by rewrite Hrows.
Qed.

(** C4 (as amended).  (1) [_build_series] raises a conversion error of
    [int] on a value that does not convert, in any store and whatever its
    other arguments.  (2) On a row that has every tag name of the schema and
    in which a measurement name of the schema maps to such a value, [parse]
    raises a conversion error.  (3) A collector whose raw rows contain a row
    with such a value raises instead of returning, a conversion error when
    all its rows have every tag name.  (4) When the collection phase of the
    run raises, the run ends with that exception and the sink has received
    no call: neither the database creation nor any write. *)
Theorem not_numeric_aborts_run :
  (∀ self measurement tags v prefix s,
     convertible v = false →
     ∃ e, parse_error e ∧
          _build_series self measurement tags v prefix s = (Raise e, s)) ∧
  (∀ self data prefix s,
     has_tags self data → not_numeric self data →
     ∃ e s', parse_error e ∧ parse self data prefix s = (Raise e, s')) ∧
  (∀ env kind self b s rows,
     _builder self = Some b →
     (_extras_tags b < length (dicts s))%nat →
     (raw_rows env kind self s).1 = Ok rows →
     Exists (not_numeric b) rows →
     ∃ e, (collect env kind self s).1 = Raise e ∧
          (Forall (has_tags b) rows → parse_error e)) ∧
  (∀ env conf fixed now s e s1,
     collect_all env conf fixed now s = (Raise e, s1) →
     ∃ e', (main env conf fixed now s).1 = Raise e' ∧
           (Res.is_ok (get_influxdb conf) = true → e' = e) ∧
           sink (main env conf fixed now s).2 = sink s).
Proof.
  split_and!.
  - intros self measurement tags v prefix s Hv.
    destruct (not_convertible_raises v Hv) as (e & He & Hpe).
    exists e. split; [done|].
    unfold _build_series, mbind, M_bind, lift. by rewrite He.
  - intros self data prefix s Htags Hbad. rewrite parse_run.
    destruct (points_of_row_not_numeric self (contents s (_extras_tags self))
                data prefix Hbad) as (e & -> & Hpe).
    eauto.
  - intros env kind self b s rows Hb Hl Hrows Hbad.
    rewrite (collect_result env kind self b s rows Hb Hl Hrows).
    apply Exists_exists in Hbad as (row & Hrow & Hbad).
    destruct (points_of_row_not_numeric b (contents s (_extras_tags b)) row
                (prefix_of kind) Hbad) as (e0 & He0 & _).
    destruct (traverse_raise
                (λ row, points_of_row b (contents s (_extras_tags b)) row
                          (prefix_of kind)) rows row e0 Hrow He0) as [e He].
    exists e. split; [done|]. intros Hall.
    apply traverse_raise_inv in He as (row' & Hrow' & He).
    eapply points_of_row_raise_has_tags; [exact He|].
    by eapply Forall_forall in Hall.
  - intros env conf fixed now s e s1 Hrun.
    pose proof (keeps_sink_collect_all env conf fixed now s) as Hsink.
    rewrite main_run, Hrun in *. simpl in Hsink.
    destruct (get_influxdb conf) as [cfg|e0]; simpl.
    + exists e. split_and!; auto.
    + exists e0. split_and!; auto. discriminate.
Qed.

Lemma not_numeric_aborts_run_witness :
  ∃ s', main env_not_numeric conf_example false 0 initial
        = (Raise (ValueError "N/A"), s') ∧ sink s' = [].
Proof.
  destruct not_numeric_aborts_run as (_ & _ & _ & Hmain).
  destruct (collect_all env_not_numeric conf_example false 0 initial)
    as [r s1] eqn:Hrun.
  assert (r = Raise (ValueError "N/A")) as ->.
  { apply (f_equal fst) in Hrun. vm_compute in Hrun. by subst r. }
  destruct (Hmain env_not_numeric conf_example false 0 initial _ _ Hrun)
    as (e' & He' & Hsame & Hsink).
  destruct (main env_not_numeric conf_example false 0 initial) as [r s'].
  simpl in *. exists s'. subst r. split; [|exact Hsink].
  rewrite Hsame; [reflexivity|]. vm_compute. reflexivity.
Defined.

(** C4 as the specification states it does not hold on a row that lacks
    the tag names: its [capacity] does not convert, yet what [parse] raises
    is the [KeyError] of the first tag name, before any point is built. *)
Lemma parse_not_numeric_without_tags_KeyError :
  not_numeric (pool_builder None) row_not_numeric_without_tags ∧
  ∃ s', parse (pool_builder None) row_not_numeric_without_tags "pool" store_prod
        = (Raise (KeyError "name"), s') ∧
        ¬ parse_error (KeyError "name").
Proof.
  split.
  - exists "capacity", (PStr "N/A"). split_and!; [by_compute|reflexivity|reflexivity].
  - eexists. split; [vm_compute; reflexivity|].
    intros [H|[literal H]]; discriminate H.
Qed.

(** ** C7: the options of an appliance section become tags *)

Lemma section_tags_lookup options tags0 key :
  section_tags options tags0 !! key
  = match options !! key with
    | Some value =>
        if decide (key ∈ not_a_tag) then tags0 !! key else Some (PStr value)
    | None => tags0 !! key
    end.
Proof.
  unfold section_tags. revert key.
  apply (map_fold_weak_ind (λ r m, ∀ key,
    r !! key = match m !! key with
               | Some value =>
                   if decide (key ∈ not_a_tag) then tags0 !! key
                   else Some (PStr value)
               | None => tags0 !! key
               end)).
  { intros key. by rewrite lookup_empty. }
  intros i x m r Hi IH key. destruct (decide (key = i)) as [->|Hne].
  - rewrite lookup_insert_eq. case_decide.
    + rewrite IH, Hi. done.
    + by rewrite lookup_insert_eq.
  - rewrite (lookup_insert_ne m) by done. rewrite <- IH.
    case_decide; [done|]. by rewrite lookup_insert_ne.
Qed.

Lemma get_svc_step_inv conf name s svc s1 :
  get_svc_step conf name s = (Ok svc, s1) →
  ∃ options,
    section conf name = Ok options ∧
    eq_tags svc = length (dicts s) ∧
    s1 = mkState (dicts s ++ [section_tags options {[ "svc" := PStr name ]}])
           (sent s) (sink s) ∧
    options !! "address" = Some (eq_address svc) ∧
    options !! "login" = Some (eq_login svc) ∧
    options !! "password" = Some (eq_password svc).
Proof.
  unfold get_svc_step, mbind, M_bind, alloc, lift, load, store, getitem. simpl.
  destruct (section conf name) as [options|]; [|discriminate].
  destruct (options !! "address") as [a|] eqn:Ha; [|discriminate].
  destruct (options !! "login") as [l|] eqn:Hlg; [|discriminate].
  destruct (options !! "password") as [p|] eqn:Hp; [|discriminate].
  unfold mret, M_ret. intros [= <- <-]. exists options.
  rewrite contents_app_last, insert_app_last. by split_and!.
Qed.

Lemma get_svc_step_total conf name options a l p s :
  section conf name = Ok options →
  options !! "address" = Some a →
  options !! "login" = Some l →
  options !! "password" = Some p →
  ∃ s1, get_svc_step conf name s = (Ok (mkEquipment (length (dicts s)) a l p), s1).
Proof.
  intros Hsec Ha Hl Hp.
  unfold get_svc_step, mbind, M_bind, alloc, lift, load, store, getitem. simpl.
  rewrite Hsec, Ha, Hl, Hp. eauto.
Qed.

(** The tags a collector attaches, outside the schema's own tag names, are
    the builder's extra tags. *)
Lemma collect_extra_tags env kind self b s xs serie p key :
  _builder self = Some b →
  (_extras_tags b < length (dicts s))%nat →
  (collect env kind self s).1 = Ok xs →
  serie ∈ xs → p ∈ serie → key ∉ _tags b →
  tags p !! key = contents s (_extras_tags b) !! key.
Proof.
  intros Hb Hl Hrun Hserie Hp Hkey.
  destruct (collect_run env kind self b s Hb Hl) as (_ & _ & Hiff).
  apply Hiff in Hrun as (rows & _ & Hxs).
  apply traverse_ok_inv in Hxs.
  apply list_elem_of_lookup in Hserie as [i Hi].
  destruct (Forall2_lookup_r _ _ _ _ _ Hxs Hi) as (row & _ & Hrow).
  destruct (points_of_row_elem _ _ _ _ _ _ Hrow Hp)
    as (other & m & n & Hother & _ & _ & _ & ->).
  simpl. apply row_tags_lookup in Hother as [_ Hlk].
  rewrite lookup_union_r; [done|]. by rewrite Hlk, decide_False.
Qed.

Lemma SSHCollector_init_inv env svc s c s' :
  SSHCollector_init env svc s = (Ok c, s') →
  s' = s ∧ c = mkCollector None (eq_address svc) (eq_login svc) (eq_password svc).
Proof.
  unfold SSHCollector_init. destruct (connect _ _ _ _); [|discriminate..].
  by intros [= <- <-].
Qed.

Lemma contents_prefix s s' extra l :
  dicts s' = dicts s ++ extra → (l < length (dicts s))%nat →
  contents s' l = contents s l.
Proof. intros Hd Hl. unfold contents. by rewrite Hd, lookup_app_l. Qed.

(** C7 (as amended).  Take one turn of the loop of [__main__], for the
    appliance section [name], that completes.  The two builders then share
    one extra-tags dictionary, in which every option of the section other
    than [name], [address], [login] and [password] is a tag with the
    option's value, those four are no tags, and [svc] is the section name
    unless the section has an option [svc].  Every point collected from the
    appliance in that turn carries each of these extra tags whose key is not
    a tag name of the schemas (those come from the row). *)
Theorem section_options_become_tags env conf name pb vb series s pb' vb' series' s' :
  main_step env (pb, vb, series) (get_svc_step conf name) s
  = (Ok (pb', vb', series'), s') →
  ∃ options new,
    section conf name = Ok options ∧
    series' = series ++ new ∧
    _extras_tags vb' = _extras_tags pb' ∧
    let extras := contents s' (_extras_tags pb') in
    (∀ key value, options !! key = Some value → key ∉ not_a_tag →
                  extras !! key = Some (PStr value)) ∧
    (∀ key, key ∈ not_a_tag → extras !! key = None) ∧
    (options !! "svc" = None → extras !! "svc" = Some (PStr name)) ∧
    (∀ serie p key,
       serie ∈ new → p ∈ serie → key ∉ _tags pb → key ∉ _tags vb →
       tags p !! key = extras !! key).
Proof.
  unfold main_step. intros H.
  apply bind_inv_ok in H as (svc & s1 & Hsvc & H).
  apply bind_inv_ok in H as (c1 & s1a & Hc1 & H).
  apply SSHCollector_init_inv in Hc1 as [-> ->].
  apply bind_inv_ok in H as (c2 & s1b & Hc2 & H).
  apply SSHCollector_init_inv in Hc2 as [-> ->].
  apply bind_inv_ok in H as (xs & s2 & Hxs & H).
  apply bind_inv_ok in H as (ys & s3 & Hys & H).
  injection H as <- <- <- <-.
  apply get_svc_step_inv in Hsvc as (options & Hsec & Hl & -> & _).
  set (extras := section_tags options {[ "svc" := PStr name ]}) in *.
  set (s1 := mkState (dicts s ++ [extras]) (sent s) (sink s)) in *.
  set (l := eq_tags svc) in *.
  assert (l < length (dicts s1))%nat as Hvalid.
  { subst s1. simpl. rewrite length_app. simpl. lia. }
  assert (contents s1 l = extras) as Hs1.
  { subst s1. rewrite Hl. apply contents_app_last. }
  set (c := mkCollector None _ _ _) in *.
  destruct (collect_run env Pool (add_series_builder c (add_extras_tags pb l))
              (add_extras_tags pb l) s1 eq_refl Hvalid) as ([e1 Hd1] & _ & _).
  rewrite Hxs in Hd1. cbn [snd] in Hd1.
  assert (l < length (dicts s2))%nat as Hvalid2.
  { rewrite Hd1, length_app. lia. }
  assert (contents s2 l = extras) as Hs2.
  { rewrite <- Hs1. by eapply contents_prefix. }
  destruct (collect_run env Volume (add_series_builder c (add_extras_tags vb l))
              (add_extras_tags vb l) s2 eq_refl Hvalid2) as ([e2 Hd2] & _ & _).
  rewrite Hys in Hd2. cbn [snd] in Hd2.
  assert (contents s3 l = extras) as Hs3.
  { rewrite <- Hs2. by eapply contents_prefix. }
  exists options, (xs ++ ys). simpl. rewrite Hs3.
  split_and!; [done|done|done| | | |].
  - intros key value Hkey Hnot. subst extras.
    rewrite section_tags_lookup, Hkey. by rewrite decide_False.
  - intros key Hkey. subst extras. rewrite section_tags_lookup.
    assert (({[ "svc" := PStr name ]} : gmap string pyval) !! key = None) as Hnone.
    { apply lookup_singleton_ne. intros <-.
      apply (bool_decide_pack _) in Hkey. vm_compute in Hkey. exact Hkey. }
    destruct (options !! key); [by rewrite decide_True|done].
  - intros Hsvc. subst extras. rewrite section_tags_lookup, Hsvc.
    by rewrite lookup_singleton_eq.
  - intros serie p key [Hserie|Hserie]%elem_of_app Hp Hk1 Hk2.
    + rewrite <- Hs1.
      apply (collect_extra_tags env Pool
               (add_series_builder c (add_extras_tags pb l))
               (add_extras_tags pb l) s1 xs serie p key); auto.
      by rewrite Hxs.
    + rewrite <- Hs2.
      apply (collect_extra_tags env Volume
               (add_series_builder c (add_extras_tags vb l))
               (add_extras_tags vb l) s2 ys serie p key); auto.
      by rewrite Hys.
Qed.

Lemma section_options_become_tags_witness :
  ∃ pb' vb' p s',
    main_step env_pool_only (pool_builder_main, volume_builder_main, [])
      (get_svc_step conf_example "SVC1") store_main
    = (Ok (pb', vb', [[p]]), s') ∧
    tags p !! "site" = Some (PStr "dc1") ∧
    tags p !! "svc" = Some (PStr "SVC1").
Proof.
  destruct (main_step env_pool_only (pool_builder_main, volume_builder_main, [])
              (get_svc_step conf_example "SVC1") store_main) as [r s'] eqn:Hrun.
  assert (∃ pb' vb' p, r = Ok (pb', vb', [[p]])) as (pb' & vb' & p & ->).
  { apply (f_equal fst) in Hrun. vm_compute in Hrun. subst r. eauto. }
  destruct (section_options_become_tags _ _ _ _ _ _ _ _ _ _ _ Hrun)
    as (options & new & Hsec & Hnew & _ & Hopt & _ & Hsvc & Hpoints).
  simpl in Hnew. subst new.
  assert (options = {[ "address" := "10.0.0.1"; "login" := "a";
                       "password" := "b"; "site" := "dc1" ]}) as ->.
  { assert (Ok options = Ok ({[ "address" := "10.0.0.1"; "login" := "a";
                                "password" := "b"; "site" := "dc1" ]}
                              : gmap string string)) as Hc
      by (rewrite <- Hsec; vm_compute; reflexivity).
    by injection Hc. }
  assert (∀ key, key ∈ ["site"; "svc"] →
                 (key ∉ _tags pool_builder_main) ∧ (key ∉ _tags volume_builder_main))
    as Hfree.
  { intros key Hkey. apply elem_of_cons in Hkey as [->|Hkey];
      [|apply list_elem_of_singleton in Hkey as ->];
      split; intros Hin; apply (bool_decide_pack _) in Hin;
      vm_compute in Hin; exact Hin. }
  exists pb', vb', p, s'. split_and!; [reflexivity| |].
  - destruct (Hfree "site") as [Hpool Hvolume]; [left|].
    rewrite (Hpoints [p] p "site"); [|left|left|exact Hpool|exact Hvolume].
    apply Hopt; [vm_compute; reflexivity|].
    intros Hin. apply (bool_decide_pack _) in Hin. vm_compute in Hin. exact Hin.
  - destruct (Hfree "svc") as [Hpool Hvolume]; [right; left|].
    rewrite (Hpoints [p] p "svc"); [|left|left|exact Hpool|exact Hvolume].
    apply Hsvc. vm_compute. reflexivity.
Defined.

(** C7 as the specification states it does not hold for the option
    [name], which is not [address], [login] or [password] and yet is no
    extra tag: the point carries the pool's name.  An option [id] is a tag
    but the row's [id] replaces it on every point, and an option [svc]
    replaces the section name. *)
Lemma section_option_name_is_no_tag :
  ∃ options svc s1 p s',
    section conf_named "SVC1" = Ok options ∧
    options !! "name" = Some "rack7" ∧
    options !! "id" = Some "42" ∧
    options !! "svc" = Some "other" ∧
    get_svc_step conf_named "SVC1" store_main = (Ok svc, s1) ∧
    contents s1 (eq_tags svc) !! "name" = None ∧
    main env_pool_only conf_named false 0 initial = (Ok (), s') ∧
    sink s' = [CreateDatabase "metrics"; WritePoints "metrics" [p] "ms"] ∧
    tags p !! "name" = Some (PStr "poolA") ∧
    tags p !! "id" = Some (PStr "1") ∧
    tags p !! "svc" = Some (PStr "other").
Proof.
  pose (options := ({[ "address" := "10.0.0.1"; "login" := "a"; "password" := "b";
                       "site" := "dc1"; "name" := "rack7"; "id" := "42";
                       "svc" := "other" ]} : gmap string string)).
  pose (svc := mkEquipment 2 "10.0.0.1" "a" "b").
  pose (s1 := mkState [∅; ∅; {[ "svc" := PStr "other"; "site" := PStr "dc1";
                                "id" := PStr "42" ]}] 0 []).
  destruct (main env_pool_only conf_named false 0 initial) as [r s'] eqn:Hmain.
  assert (∃ p, r = Ok () ∧
               sink s' = [CreateDatabase "metrics"; WritePoints "metrics" [p] "ms"] ∧
               tags p !! "name" = Some (PStr "poolA") ∧
               tags p !! "id" = Some (PStr "1") ∧
               tags p !! "svc" = Some (PStr "other"))
    as (p & -> & Hsink & Hname & Hid & Hsvc).
  { vm_compute in Hmain. injection Hmain as <- <-.
    eexists. split_and!; reflexivity. }
  exists options, svc, s1, p, s'.
  split_and!; try done; vm_compute; reflexivity.
Qed.

(** ** The whole run on the example appliance *)

(** One section [SVC1] with the extra option [site], one pool row: the
    sink is asked to create the database, then receives the one series of
    the pool row (and nothing for the volumes, of which there are none). *)
Example main_end_to_end :
  ∃ s', main env_pool_only conf_example false 0 initial = (Ok (), s') ∧
        sink s'
        = [CreateDatabase "svc2influxdb";
           WritePoints "svc2influxdb"
             [mkPoint "pool_capacity"
                {[ "svc" := PStr "SVC1"; "site" := PStr "dc1";
                   "name" := PStr "poolA"; "id" := PStr "1" ]}
                {[ "value" := 1000000 ]} None]
             "ms"].
Proof.
  destruct (main env_pool_only conf_example false 0 initial) as [r s'] eqn:Hmain.
  vm_compute in Hmain. injection Hmain as <- <-.
  eexists. split; [reflexivity|]. vm_compute. reflexivity.
Qed.

(** With [--fixed] every point carries the timestamp of the run, unless
    that timestamp is [0]. *)
Example main_fixed_timestamp :
  (∃ p s', main env_pool_only conf_example true 1234 initial = (Ok (), s') ∧
           sink s' = [CreateDatabase "svc2influxdb";
                      WritePoints "svc2influxdb" [p] "ms"] ∧
           time p = Some 1234) ∧
  (∃ p s', main env_pool_only conf_example true 0 initial = (Ok (), s') ∧
           sink s' = [CreateDatabase "svc2influxdb";
                      WritePoints "svc2influxdb" [p] "ms"] ∧
           time p = None).
Proof.
  split.
  - destruct (main env_pool_only conf_example true 1234 initial) as [r s'] eqn:Hmain.
    vm_compute in Hmain. injection Hmain as <- <-.
    eexists _, _. split_and!; reflexivity.
  - destruct (main env_pool_only conf_example true 0 initial) as [r s'] eqn:Hmain.
    vm_compute in Hmain. injection Hmain as <- <-.
    eexists _, _. split_and!; reflexivity.
Qed.

(** * Further properties of the code *)

(** In a worked example, [concrete H v] replaces the variable [x] of a
    hypothesis [H : e = Ok x] by the value [v] that [e] evaluates to. *)
Ltac concrete H v :=
  match type of H with
  | _ = Ok ?x =>
      let Hc := fresh in
      assert (Hc : Ok x = Ok v) by (rewrite <- H; vm_compute; reflexivity);
      injection Hc as ->
  end.

(** ** [ConfigFile.get_influxdb] and [ConfigFile.get_svc] *)

Lemma getitem_ok {V} (d : gmap string V) key v :
  getitem d key = Ok v ↔ d !! key = Some v.
Proof. unfold getitem. destruct (d !! key); split; congruence. Qed.

Lemma getitem_raise {V} (d : gmap string V) key e :
  getitem d key = Raise e ↔ d !! key = None ∧ e = KeyError key.
Proof.
  unfold getitem. destruct (d !! key); split;
    try discriminate; try (intros [? ?]; congruence).
  intros [= <-]. done.
Qed.

Lemma section_raise conf name e :
  section conf name = Raise e → e = KeyError name.
Proof.
  unfold section. destruct (String.eqb name "DEFAULT"); [discriminate|].
  destruct (assoc name (sects conf)); [discriminate|]. congruence.
Qed.

(** X1.  [get_influxdb] returns a configuration exactly when the file has
    a section [INFLUXDB] in which the four options it reads are visible;
    otherwise it raises the [KeyError] of the section name or of the first
    option that is missing.  In the configuration it returns, user name and
    password are [None] exactly when the option is the empty string. *)
Theorem get_influxdb_succeeds_iff conf :
  ((∃ cfg, get_influxdb conf = Ok cfg) ↔
   ∃ influx, section conf "INFLUXDB" = Ok influx ∧
             Forall (λ key, is_Some (influx !! key)) influx_keys) ∧
  (∀ e, get_influxdb conf = Raise e →
        ∃ key, e = KeyError key ∧ key ∈ "INFLUXDB" :: influx_keys) ∧
  (∀ cfg, get_influxdb conf = Ok cfg →
     ∃ influx, section conf "INFLUXDB" = Ok influx ∧
       influx !! "address" = Some (db_address cfg) ∧
       (db_username cfg = None ↔ influx !! "username" = Some "") ∧
       (db_password cfg = None ↔ influx !! "password" = Some "") ∧
       (∀ u, db_username cfg = Some u → influx !! "username" = Some u) ∧
       (∀ w, db_password cfg = Some w → influx !! "password" = Some w)).
Proof.
  unfold get_influxdb, mbind, result_bind.
  destruct (section conf "INFLUXDB") as [influx|e0] eqn:Hsec; simpl.
  2: { split_and!.
       - split; [by intros [? ?]|by intros (? & ? & _)].
       - intros e [= <-]. apply section_raise in Hsec as ->.
         exists "INFLUXDB". split; [done|left].
       - discriminate. }
  unfold getitem.
  destruct (influx !! "address") as [a|] eqn:Ha; simpl.
  2: { split_and!.
       - split; [by intros [? ?]|]. intros (i & [= <-] & Hall).
         apply Forall_cons in Hall as [[? Hx] _]. congruence.
       - intros e [= <-]. exists "address". split; [done|]. right; left.
       - discriminate. }
  destruct (influx !! "username") as [u|] eqn:Hu; simpl.
  2: { split_and!.
       - split; [by intros [? ?]|]. intros (i & [= <-] & Hall).
         apply Forall_cons in Hall as [_ Hall].
         apply Forall_cons in Hall as [[? Hx] _]. congruence.
       - intros e [= <-]. exists "username". split; [done|]. do 2 right; left.
       - discriminate. }
  destruct (influx !! "password") as [w|] eqn:Hw; simpl.
  2: { split_and!.
       - split; [by intros [? ?]|]. intros (i & [= <-] & Hall).
         do 2 apply Forall_cons in Hall as [_ Hall].
         apply Forall_cons in Hall as [[? Hx] _]. congruence.
       - intros e [= <-]. exists "password". split; [done|]. do 3 right; left.
       - discriminate. }
  destruct (influx !! "database") as [d|] eqn:Hd; simpl.
  2: { split_and!.
       - split; [by intros [? ?]|]. intros (i & [= <-] & Hall).
         do 3 apply Forall_cons in Hall as [_ Hall].
         apply Forall_cons in Hall as [[? Hx] _]. congruence.
       - intros e [= <-]. exists "database". split; [done|]. do 4 right; left.
       - discriminate. }
  split_and!.
  - split; [|eauto]. intros _. exists influx. split; [done|].
    repeat constructor; eauto.
  - discriminate.
  - intros cfg [= <-]. exists influx. simpl. unfold or_none.
    split_and!; [done|done| | | |].
    + destruct (String.eqb_spec u ""); split; try done; congruence.
    + destruct (String.eqb_spec w ""); split; try done; congruence.
    + intros u'. destruct (String.eqb_spec u ""); congruence.
    + intros w'. destruct (String.eqb_spec w ""); congruence.
Qed.

(** X2.  A step of [get_svc] yields an equipment exactly when the three
    options [address], [login] and [password] are visible in the section;
    the equipment then holds their values.  Otherwise the step raises the
    [KeyError] of the section name or of the first of these options that is
    missing. *)
Theorem get_svc_step_succeeds_iff conf name s :
  ((∃ svc s1, get_svc_step conf name s = (Ok svc, s1)) ↔
   ∃ options, section conf name = Ok options ∧
              Forall (λ key, is_Some (options !! key)) appliance_keys) ∧
  (∀ svc s1, get_svc_step conf name s = (Ok svc, s1) →
     ∃ options, section conf name = Ok options ∧
                options !! "address" = Some (eq_address svc) ∧
                options !! "login" = Some (eq_login svc) ∧
                options !! "password" = Some (eq_password svc)) ∧
  (∀ e s1, get_svc_step conf name s = (Raise e, s1) →
     ∃ key, e = KeyError key ∧ key ∈ name :: appliance_keys).
Proof.
  split_and!.
  - split.
    + intros (svc & s1 & H). apply get_svc_step_inv in H
        as (options & Hsec & _ & _ & Ha & Hl & Hp).
      exists options. split; [done|]. repeat constructor; eauto.
    + intros (options & Hsec & Hall).
      apply Forall_cons in Hall as [[a Ha] Hall].
      apply Forall_cons in Hall as [[l Hl] Hall].
      apply Forall_cons in Hall as [[w Hw] _].
      destruct (get_svc_step_total conf name options a l w s Hsec Ha Hl Hw)
        as [s1 H]. eauto.
  - intros svc s1 H. apply get_svc_step_inv in H
      as (options & Hsec & _ & _ & Ha & Hl & Hp). eauto 10.
  - intros e s1.
    unfold get_svc_step, mbind, M_bind, alloc, lift, load, store, getitem. simpl.
    destruct (section conf name) as [options|e0] eqn:Hsec.
    2: { intros [= <- _]. apply section_raise in Hsec as ->.
         exists name. split; [done|left]. }
    destruct (options !! "address").
    2: { intros [= <- _]. exists "address". split; [done|]. right; left. }
    destruct (options !! "login").
    2: { intros [= <- _]. exists "login". split; [done|]. do 2 right; left. }
    destruct (options !! "password").
    2: { intros [= <- _]. exists "password". split; [done|]. do 3 right; left. }
    discriminate.
Qed.

Lemma get_influxdb_succeeds_iff_witness :
  (∃ cfg, get_influxdb conf_example = Ok cfg ∧ db_username cfg = None) ∧
  (∃ cfg, get_influxdb conf_two = Ok cfg ∧ db_username cfg ≠ None).
Proof.
  split.
  - destruct (get_influxdb_succeeds_iff conf_example) as (Hiff & _ & Hcfg).
    destruct (proj2 Hiff) as [cfg Hrun].
    { exists ({[ "address" := "influx.example"; "username" := "";
                "password" := ""; "database" := "" ]} : gmap string string).
      split; [vm_compute; reflexivity|by_compute]. }
    exists cfg. split; [exact Hrun|].
    destruct (Hcfg cfg Hrun) as (influx & Hsec & _ & Huser & _).
    apply Huser.
    concrete Hsec ({[ "address" := "influx.example"; "username" := "";
                      "password" := ""; "database" := "" ]} : gmap string string).
    vm_compute. reflexivity.
  - destruct (get_influxdb_succeeds_iff conf_two) as (Hiff & _ & Hcfg).
    destruct (proj2 Hiff) as [cfg Hrun].
    { exists ({[ "address" := "influx.example"; "username" := "admin";
                "password" := "secret"; "database" := "metrics";
                "site" := "dc1"; "rack" := "r1" ]} : gmap string string).
      split; [vm_compute; reflexivity|by_compute]. }
    exists cfg. split; [exact Hrun|].
    destruct (Hcfg cfg Hrun) as (influx & Hsec & _ & Huser & _).
    intros Hnone. apply Huser in Hnone.
    concrete Hsec ({[ "address" := "influx.example"; "username" := "admin";
                      "password" := "secret"; "database" := "metrics";
                      "site" := "dc1"; "rack" := "r1" ]} : gmap string string).
    vm_compute in Hnone. discriminate Hnone.
Defined.

Lemma get_svc_step_succeeds_iff_witness :
  (∃ svc s1, get_svc_step conf_two "SVC2" initial = (Ok svc, s1) ∧
             eq_address svc = "10.0.0.2") ∧
  (∃ s1, get_svc_step conf_no_login "SVC1" initial = (Raise (KeyError "login"), s1)).
Proof.
  split.
  - destruct (get_svc_step_succeeds_iff conf_two "SVC2" initial) as (Hiff & Hval & _).
    destruct (proj2 Hiff) as (svc & s1 & Hrun).
    { exists ({[ "address" := "10.0.0.2"; "login" := "a"; "password" := "b";
              "rack" := "r2"; "site" := "dc1" ]} : gmap string string).
      split; [vm_compute; reflexivity|by_compute]. }
    exists svc, s1. split; [exact Hrun|].
    destruct (Hval svc s1 Hrun) as (options & Hsec & Ha & _).
    concrete Hsec ({[ "address" := "10.0.0.2"; "login" := "a"; "password" := "b";
                      "rack" := "r2"; "site" := "dc1" ]} : gmap string string).
    assert (Some (eq_address svc) = Some "10.0.0.2") as Heq
      by (rewrite <- Ha; vm_compute; reflexivity).
    by injection Heq.
  - destruct (get_svc_step_succeeds_iff conf_no_login "SVC1" initial) as (_ & _ & Herr).
    destruct (get_svc_step conf_no_login "SVC1" initial) as [r s1] eqn:Hrun.
    assert (r = Raise (KeyError "login")) as ->.
    { apply (f_equal fst) in Hrun. vm_compute in Hrun. by subst r. }
    destruct (Herr _ _ eq_refl) as (key & _ & _). by exists s1.
Defined.

Lemma get_svc_step_keeps_dicts conf name s l :
  (l < length (dicts s))%nat →
  contents (get_svc_step conf name s).2 l = contents s l.
Proof.
  intros Hl.
  unfold get_svc_step, mbind, M_bind, alloc, lift, load, store, getitem. simpl.
  destruct (section conf name) as [options|]; simpl;
    [|destruct s; by eapply contents_old].
  destruct (options !! "address"); simpl; [|destruct s; by eapply contents_old].
  destruct (options !! "login"); simpl; [|destruct s; by eapply contents_old].
  destruct (options !! "password"); simpl; [|destruct s; by eapply contents_old].
  unfold contents at 1. simpl.
  rewrite list_lookup_insert_ne by lia.
  by rewrite lookup_app_l.
Qed.

(** X3.  The tag dictionary a step of [get_svc] yields is a new object:
    the step leaves every dictionary that existed before as it was, and two
    successive steps yield two different dictionaries, the second step
    leaving the tags of the first appliance unchanged although the
    [equipment] dictionary itself is reused. *)
Theorem get_svc_steps_fresh_tags conf name1 name2 s svc1 s1 svc2 s2 :
  get_svc_step conf name1 s = (Ok svc1, s1) →
  get_svc_step conf name2 s1 = (Ok svc2, s2) →
  eq_tags svc1 ≠ eq_tags svc2 ∧
  contents s2 (eq_tags svc1) = contents s1 (eq_tags svc1) ∧
  ∀ l, (l < length (dicts s))%nat → contents s2 l = contents s l.
Proof.
  intros H1 H2.
  pose proof (get_svc_step_inv _ _ _ _ _ H1) as (o1 & _ & Hl1 & Hs1 & _).
  pose proof (get_svc_step_inv _ _ _ _ _ H2) as (o2 & _ & Hl2 & Hs2 & _).
  assert (length (dicts s1) = S (length (dicts s))) as Hlen.
  { rewrite Hs1. simpl. rewrite length_app. simpl. lia. }
  split_and!.
  - rewrite Hl1, Hl2, Hlen. lia.
  - replace s2 with (get_svc_step conf name2 s1).2 by by rewrite H2.
    apply get_svc_step_keeps_dicts. rewrite Hl1, Hlen. lia.
  - intros l Hl.
    replace s2 with (get_svc_step conf name2 s1).2 by by rewrite H2.
    rewrite get_svc_step_keeps_dicts by lia.
    replace s1 with (get_svc_step conf name1 s).2 by by rewrite H1.
    by apply get_svc_step_keeps_dicts.
Qed.

Lemma get_svc_steps_fresh_tags_witness :
  ∃ svc1 s1 svc2 s2,
    get_svc_step conf_two "SVC1" initial = (Ok svc1, s1) ∧
    get_svc_step conf_two "SVC2" s1 = (Ok svc2, s2) ∧
    eq_tags svc1 ≠ eq_tags svc2 ∧
    contents s2 (eq_tags svc1) = contents s1 (eq_tags svc1).
Proof.
  destruct (proj2 (proj1 (get_svc_step_succeeds_iff conf_two "SVC1" initial)))
    as (svc1 & s1 & H1).
  { exists ({[ "address" := "10.0.0.1"; "login" := "a"; "password" := "b";
              "site" := "dc1"; "rack" := "r1" ]} : gmap string string).
    split; [vm_compute; reflexivity|by_compute]. }
  destruct (proj2 (proj1 (get_svc_step_succeeds_iff conf_two "SVC2" s1)))
    as (svc2 & s2 & H2).
  { exists ({[ "address" := "10.0.0.2"; "login" := "a"; "password" := "b";
              "rack" := "r2"; "site" := "dc1" ]} : gmap string string).
    split; [vm_compute; reflexivity|by_compute]. }
  destruct (get_svc_steps_fresh_tags _ _ _ _ _ _ _ _ H1 H2) as (Hne & Hsame & _).
  exists svc1, s1, svc2, s2. split_and!; done.
Defined.

(** X4.  The options of the [DEFAULT] section are visible in every
    appliance section, so they become extra tags of every appliance: a
    default option that is none of [name], [address], [login], [password]
    is a tag, with the section's own value where the section sets the
    option too, and the default value otherwise. *)
Theorem default_options_become_tags conf name s svc s1 key value :
  name ≠ "DEFAULT" →
  get_svc_step conf name s = (Ok svc, s1) →
  defaults conf !! key = Some value →
  key ∉ not_a_tag →
  ∃ own, assoc name (sects conf) = Some own ∧
         contents s1 (eq_tags svc) !! key
         = Some (PStr (default value (own !! key))).
Proof.
  intros Hname Hrun Hdef Hkey.
  apply get_svc_step_inv in Hrun as (options & Hsec & Hl & -> & _).
  unfold section in Hsec.
  destruct (String.eqb_spec name "DEFAULT") as [?|_]; [done|].
  destruct (assoc name (sects conf)) as [own|]; [|discriminate].
  injection Hsec as <-. exists own. split; [done|].
  rewrite Hl, contents_app_last, section_tags_lookup.
  rewrite lookup_union, Hdef.
  destruct (own !! key) as [v|]; simpl; by rewrite decide_False.
Qed.

Lemma default_options_become_tags_witness :
  ∃ svc1 s1 svc2 s2,
    get_svc_step conf_two "SVC1" initial = (Ok svc1, s1) ∧
    get_svc_step conf_two "SVC2" initial = (Ok svc2, s2) ∧
    contents s1 (eq_tags svc1) !! "rack" = Some (PStr "r1") ∧
    contents s2 (eq_tags svc2) !! "rack" = Some (PStr "r2").
Proof.
  destruct (proj2 (proj1 (get_svc_step_succeeds_iff conf_two "SVC1" initial)))
    as (svc1 & s1 & H1).
  { exists ({[ "address" := "10.0.0.1"; "login" := "a"; "password" := "b";
              "site" := "dc1"; "rack" := "r1" ]} : gmap string string).
    split; [vm_compute; reflexivity|by_compute]. }
  destruct (proj2 (proj1 (get_svc_step_succeeds_iff conf_two "SVC2" initial)))
    as (svc2 & s2 & H2).
  { exists ({[ "address" := "10.0.0.2"; "login" := "a"; "password" := "b";
              "rack" := "r2"; "site" := "dc1" ]} : gmap string string).
    split; [vm_compute; reflexivity|by_compute]. }
  assert ("rack" ∉ not_a_tag) as Hrack.
  { intros Hin. apply (bool_decide_pack _) in Hin. vm_compute in Hin. exact Hin. }
  assert ("SVC1" ≠ "DEFAULT" ∧ "SVC2" ≠ "DEFAULT") as [Hn1 Hn2]
    by (split; discriminate).
  destruct (default_options_become_tags conf_two "SVC1" initial svc1 s1 "rack" "r1")
    as (own1 & Hown1 & Ht1);
    [exact Hn1|exact H1|vm_compute; reflexivity|exact Hrack|].
  destruct (default_options_become_tags conf_two "SVC2" initial svc2 s2 "rack" "r1")
    as (own2 & Hown2 & Ht2);
    [exact Hn2|exact H2|vm_compute; reflexivity|exact Hrack|].
  exists svc1, s1, svc2, s2. split_and!; [done|done| |].
  - rewrite Ht1.
    assert (Some own1 = Some ({[ "address" := "10.0.0.1"; "login" := "a";
                                 "password" := "b" ]} : gmap string string)) as Hc
      by (rewrite <- Hown1; vm_compute; reflexivity).
    injection Hc as ->. vm_compute. reflexivity.
  - rewrite Ht2.
    assert (Some own2 = Some ({[ "address" := "10.0.0.2"; "login" := "a";
                                 "password" := "b"; "rack" := "r2" ]}
                              : gmap string string)) as Hc
      by (rewrite <- Hown2; vm_compute; reflexivity).
    injection Hc as ->. vm_compute. reflexivity.
Defined.

(** ** [SeriesBuilder.parse] *)

(** X5.  A row that has none of the schema's measurement names yields the
    empty series without any error, whether or not it has the tag names:
    the tags are only looked up once a measurement name is found. *)
Theorem parse_no_measurement self data prefix s :
  (∀ m, m ∈ _measurements self → data !! m = None) →
  ∃ s', parse self data prefix s = (Ok [], s') ∧
        contents s' (length (dicts s)) = contents s (_extras_tags self).
Proof.
  intros Hnone. rewrite parse_run. eexists. split.
  - f_equal. unfold points_of_row.
    destruct (present data (_measurements self)) as [|m ms] eqn:Hp; [done|].
    assert (m ∈ present data (_measurements self)) as Hin by (rewrite Hp; left).
    apply elem_of_present in Hin as [[v Hv] Hm].
    rewrite (Hnone m Hm) in Hv. discriminate.
  - destruct s as [ds k snk]. simpl. rewrite contents_app_last.
    unfold merged_after.
    destruct (present data (_measurements self)) as [|m ms] eqn:Hp; [done|].
    assert (m ∈ present data (_measurements self)) as Hin by (rewrite Hp; left).
    apply elem_of_present in Hin as [[v Hv] Hm].
    rewrite (Hnone m Hm) in Hv. discriminate.
Qed.

Lemma parse_no_measurement_witness :
  ∃ s', parse (pool_builder None) row_tags_only "pool" store_prod = (Ok [], s').
Proof.
  destruct (parse_no_measurement (pool_builder None) row_tags_only "pool" store_prod)
    as (s' & Hrun & _).
  - intros m Hm. simpl in Hm. unfold pool_measurements in Hm.
    repeat (apply elem_of_cons in Hm as [->|Hm]; [vm_compute; reflexivity|]).
    by apply elem_of_nil in Hm.
  - by exists s'.
Defined.

(** X6.  When [parse] returns, the points follow the schema's order of
    the measurement names the row has, and the point of a name [m] has the
    single field [value], which is the integer [int(row[m])], under the
    measurement name [prefix_m]. *)
Theorem parse_fields self data prefix s series s' :
  parse self data prefix s = (Ok series, s') →
  Forall2 (λ m p, ∃ v n, data !! m = Some v ∧ py_int v = Ok n ∧
                         measurement p = series_name prefix m ∧
                         fields p = {[ "value" := n ]})
          (present data (_measurements self)) series.
Proof.
  rewrite parse_run. intros [= Hrow _].
  apply points_of_row_ok_inv in Hrow as [[-> ->]|(other & _ & H)]; [constructor|].
  assert (∀ m, m ∈ present data (_measurements self) → is_Some (data !! m)) as Hin
    by (intros m [? _]%elem_of_present; done).
  revert Hin. induction H as [|m p ms ps (n & Hn & ->) _ IH]; intros Hin;
    constructor.
  - destruct (Hin m) as [v Hv]; [left|]. rewrite Hv in Hn. simpl in Hn.
    exists v, n. by split_and!.
  - apply IH. intros m' Hm'. apply Hin. by right.
Qed.

Lemma parse_fields_witness :
  ∃ p1 p2 s',
    parse (pool_builder None) row_poolA "pool" store_prod = (Ok [p1; p2], s') ∧
    fields p1 = {[ "value" := 1000000 ]} ∧
    fields p2 = {[ "value" := 250 ]}.
Proof.
  destruct (parse (pool_builder None) row_poolA "pool" store_prod)
    as [r s'] eqn:Hrun.
  assert (∃ p1 p2, r = Ok [p1; p2]) as (p1 & p2 & ->).
  { apply (f_equal fst) in Hrun. vm_compute in Hrun. subst r. eauto. }
  pose proof (parse_fields _ _ _ _ _ _ Hrun) as H.
  assert (present row_poolA (_measurements (pool_builder None))
          = ["capacity"; "free_capacity"]) as Hp by (vm_compute; reflexivity).
  rewrite Hp in H.
  apply Forall2_cons_1 in H as [(v1 & n1 & Hv1 & Hn1 & _ & Hf1) H].
  apply Forall2_cons_1 in H as [(v2 & n2 & Hv2 & Hn2 & _ & Hf2) _].
  exists p1, p2, s'. split_and!; [reflexivity| |].
  - rewrite Hf1. f_equal.
    assert (Some v1 = Some (PStr "1000000")) as [= ->]
      by (rewrite <- Hv1; vm_compute; reflexivity).
    vm_compute in Hn1. by injection Hn1.
  - rewrite Hf2. f_equal.
    assert (Some v2 = Some (PStr "250")) as [= ->]
      by (rewrite <- Hv2; vm_compute; reflexivity).
    vm_compute in Hn2. by injection Hn2.
Defined.

(** X7.  [add_extras_tags] keeps the caller's dictionary itself, not a
    copy of it: when the caller changes that dictionary afterwards, the
    points [parse] builds next carry the changed tags. *)
Theorem add_extras_tags_shares_dictionary self extras changed data prefix s series s' :
  (extras < length (dicts s))%nat →
  parse (add_extras_tags self extras) data prefix (store extras changed s).2
  = (Ok series, s') →
  ∀ p key, p ∈ series → key ∉ _tags self → tags p !! key = changed !! key.
Proof.
  intros Hl Hrun p key Hp Hkey.
  destruct (parse_tags _ _ _ _ _ _ _ Hrun Hp) as (other & Hother & ->).
  simpl in *. apply row_tags_lookup in Hother as [_ Hlk].
  rewrite lookup_union_r by (by rewrite Hlk, decide_False).
  unfold contents, store. simpl. by rewrite list_lookup_insert_eq.
Qed.

Lemma add_extras_tags_shares_dictionary_witness :
  ∃ p1 p2 s',
    parse (add_extras_tags (pool_builder None) 0) row_poolA "pool"
      (store 0 {[ "env" := PStr "test" ]} store_prod).2
    = (Ok [p1; p2], s') ∧
    tags p1 !! "env" = Some (PStr "test").
Proof.
  destruct (parse (add_extras_tags (pool_builder None) 0) row_poolA "pool"
              (store 0 {[ "env" := PStr "test" ]} store_prod).2)
    as [r s'] eqn:Hrun.
  assert (∃ p1 p2, r = Ok [p1; p2]) as (p1 & p2 & ->).
  { apply (f_equal fst) in Hrun. vm_compute in Hrun. subst r. eauto. }
  exists p1, p2, s'. split; [reflexivity|].
  rewrite (add_extras_tags_shares_dictionary (pool_builder None) 0
             {[ "env" := PStr "test" ]} row_poolA "pool" store_prod
             [p1; p2] s'); [vm_compute; reflexivity|vm_compute; lia|exact Hrun|left|].
  intros Hin. apply (bool_decide_pack _) in Hin. vm_compute in Hin. exact Hin.
Defined.

(** ** The collectors *)

Lemma keeps_sent_bind {A B} (m : M A) (k : A → M B) :
  keeps_sent m → (∀ a, keeps_sent (k a)) → keeps_sent (m ≫= k).
Proof.
  intros Hm Hk s. unfold mbind, M_bind.
  specialize (Hm s). destruct (m s) as [[a|e] s1]; simpl in *; [|done].
  by rewrite Hk.
Qed.

Lemma keeps_sent_parse self data prefix : keeps_sent (parse self data prefix).
Proof. intros s. by rewrite parse_run. Qed.

Lemma keeps_sent_builder_parse self prefix line :
  keeps_sent (builder_parse self prefix line).
Proof.
  unfold builder_parse. destruct (_builder self); [apply keeps_sent_parse|done].
Qed.

Lemma keeps_sent_for_each {A B} (f : A → M B) xs :
  (∀ x, keeps_sent (f x)) → keeps_sent (for_each f xs).
Proof.
  intros Hf. induction xs as [|x xs IH]; [done|].
  simpl. apply keeps_sent_bind; [done|]. intros y.
  apply keeps_sent_bind; [done|]. by intros ys s.
Qed.

Lemma for_each_length {A B} (f : A → M B) xs : ∀ s ys s',
  for_each f xs s = (Ok ys, s') → length ys = length xs.
Proof.
  induction xs as [|x xs IH]; intros s ys s' H.
  - by injection H as <- <-.
  - simpl in H. apply bind_inv_ok in H as (y & s1 & _ & H).
    apply bind_inv_ok in H as (ys' & s2 & H & [= <- <-]).
    simpl. f_equal. by eapply IH.
Qed.

(** A loop whose body sends one command each time it completes. *)
Lemma for_each_sent {A B} (f : A → M B) xs :
  (∀ x s y s', f x s = (Ok y, s') → sent s' = S (sent s)) →
  ∀ s ys s', for_each f xs s = (Ok ys, s') →
             sent s' = (sent s + length ys)%nat.
Proof.
  intros Hf. induction xs as [|x xs IH]; intros s ys s' H.
  - injection H as <- <-. simpl. lia.
  - simpl in H. apply bind_inv_ok in H as (y & s1 & Hy & H).
    apply bind_inv_ok in H as (ys' & s2 & H & [= <- <-]).
    apply Hf in Hy. apply IH in H. simpl. lia.
Qed.

Lemma for_rows_inv_ok {A B} (f : A → M B) rs s ys s' :
  for_rows f rs s = (Ok ys, s') → rs.2 = None ∧ for_each f rs.1 s = (Ok ys, s').
Proof.
  unfold for_rows. intros H. apply bind_inv_ok in H as (ys' & s1 & H1 & H).
  destruct rs.2; [discriminate|]. by injection H as <- <-.
Qed.

Lemma get_volume_details_sent env self identifier s :
  sent (_get_volume_details env self identifier s).2 = S (sent s).
Proof. done. Qed.

(** X8.  A pool collector that returns has sent one command; a volume
    collector that returns has sent one command for the listing and one
    for each volume, that is, for each series it returns. *)
Theorem collect_commands_sent env kind self s xs s' :
  collect env kind self s = (Ok xs, s') →
  sent s' = match kind with
            | Pool => S (sent s)
            | Volume => S (sent s + length xs)
            end.
Proof.
  destruct kind; simpl; intros H.
  - unfold Pool_collect in H. apply bind_inv_ok in H as (out & s1 & [= <- <-] & H).
    apply for_rows_inv_ok in H as [_ H].
    pose proof (keeps_sent_for_each (builder_parse self "pool")
                  (Csv.DictReader (exec_command env (sent s) (_address self)
                                     "lsmdiskgrp -bytes -delim ,")).1
                  (keeps_sent_builder_parse self "pool")) as Hk.
    specialize (Hk (mkState (dicts s) (S (sent s)) (sink s))).
    rewrite H in Hk. exact Hk.
  - unfold Volume_collect in H. apply bind_inv_ok in H as (out & s1 & [= <- <-] & H).
    apply bind_inv_ok in H as (details & s2 & Hdetails & H).
    apply for_rows_inv_ok in Hdetails as [_ Hdetails].
    apply for_each_sent in Hdetails; cycle 1.
    { intros line t y t' Hline.
      apply bind_inv_ok in Hline as (identifier & t1 & [= _ <-] & Hline).
      rewrite <- (get_volume_details_sent env self identifier t).
      by rewrite Hline. }
    pose proof (keeps_sent_for_each (builder_parse self "volume") details
                  (keeps_sent_builder_parse self "volume") s2) as Hk.
    rewrite H in Hk. simpl in Hk, Hdetails.
    apply for_each_length in H. rewrite Hk, Hdetails, H. lia.
Qed.

Lemma collect_commands_sent_witness :
  ∃ p s',
    collect env_example Volume (collector_example (pool_builder None)) store_prod
    = (Ok [[p]], s') ∧ sent s' = 2%nat.
Proof.
  destruct (collect env_example Volume (collector_example (pool_builder None))
              store_prod) as [r s'] eqn:Hrun.
  assert (∃ p, r = Ok [[p]]) as (p & ->).
  { apply (f_equal fst) in Hrun. vm_compute in Hrun. subst r. eauto. }
  exists p, s'. split; [reflexivity|].
  exact (collect_commands_sent _ _ _ _ _ _ Hrun).
Defined.

(** X9.  When the first row of the volume listing has no [id] column, the
    volume collector stops with [KeyError] on [id], having sent the
    listing command only. *)
Theorem Volume_collect_missing_id env self s row rows e :
  Csv.DictReader (exec_command env (sent s) (_address self) "lsvdisk -bytes -delim ,")
  = (row :: rows, e) →
  row !! "id" = None →
  collect env Volume self s
  = (Raise (KeyError "id"), mkState (dicts s) (S (sent s)) (sink s)).
Proof.
  intros Hrows Hid. simpl. unfold Volume_collect, mbind, M_bind, _send_command.
  simpl. rewrite Hrows. unfold for_rows, mbind, M_bind. simpl.
  unfold mbind, M_bind, lift, getitem. by rewrite Hid.
Qed.

Lemma Volume_collect_missing_id_witness :
  ∃ s', collect (mkEnv (λ _ _ _, Connected) (λ _ _ _, ["name,capacity"; "vol1,10"]) true)
          Volume (collector_example (pool_builder None)) initial
        = (Raise (KeyError "id"), s') ∧ sent s' = 1%nat.
Proof.
  eexists. split.
  - eapply (Volume_collect_missing_id _ _ _
              ({[ "name" := PStr "vol1"; "capacity" := PStr "10" ]} : gmap string pyval)
              [] None); vm_compute; reflexivity.
  - reflexivity.
Defined.

(** X10.  A line of volume-detail output with a single field makes
    [_get_volume_details] stop with [IndexError], whatever the other lines
    are: the dictionary needs the second field of every line that is not
    blank. *)
Theorem get_volume_details_single_field env self identifier s recs e f :
  Csv.reader (exec_command env (sent s) (_address self)
                ("lsvdisk -bytes -delim , " +:+ format_s identifier)) = (recs, e) →
  [f] ∈ recs →
  _get_volume_details env self identifier s
  = (Raise IndexError, mkState (dicts s) (S (sent s)) (sink s)).
Proof.
  intros Hrecs Hin. unfold _get_volume_details, mbind, M_bind, _send_command, lift.
  simpl. rewrite Hrecs. unfold detail_rows. simpl.
  assert (∀ acc, detail_dict recs acc = Raise IndexError) as ->; [|done].
  clear Hrecs. induction recs as [|rec recs IH]; intros acc.
  - by apply elem_of_nil in Hin.
  - apply elem_of_cons in Hin as [<-|Hin]; [done|].
    destruct rec as [|k [|v rec]]; simpl; auto.
Qed.

Lemma get_volume_details_single_field_witness :
  ∃ s', _get_volume_details
          (mkEnv (λ _ _ _, Connected) (λ _ _ _, ["id,1"; "capacity"; "name,vol1"]) true)
          (collector_example (pool_builder None)) (PStr "1") initial
        = (Raise IndexError, s').
Proof.
  eexists.
  eapply (get_volume_details_single_field _ _ _ _
            [["id"; "1"]; ["capacity"]; ["name"; "vol1"]] None "capacity").
  - vm_compute. reflexivity.
  - right. left.
Defined.

(** ** Listings read by [csv.DictReader] *)

Lemma traverse_ext {A B} (f g : A → result B) xs :
  (∀ x, f x = g x) → Res.traverse f xs = Res.traverse g xs.
Proof. intros H. induction xs as [|x xs IH]; [done|]. simpl. by rewrite H, IH. Qed.

Lemma feed_field_at st f rest fs :
  st = Csv.START_RECORD ∨ st = Csv.START_FIELD →
  field_ok f →
  ∃ st', (st' = Csv.IN_FIELD ∨ st' = Csv.QUOTE_IN_QUOTED_FIELD
          ∨ (st' = st ∧ f = Unquoted "")) ∧
         Csv.feed (Csv.mkReader st "" fs) (text_of f +:+ rest)
         = Csv.feed (Csv.mkReader st' (value_of f) fs) rest.
Proof.
  intros Hst Hf. destruct f as [v|v]; simpl in *.
  - destruct v as [|c v].
    { exists st. split; [right; right; done|done]. }
    exists Csv.IN_FIELD. split; [by left|].
    unfold unquoted in Hf. apply andb_prop in Hf as [Hs Hq].
    apply negb_true_iff in Hq.
    simpl in Hs. apply andb_prop in Hs as [Hc Hs].
    apply field_char_inv in Hc as (Hnl & Hd).
    rewrite append_cons.
    simpl. unfold Csv.parse_process_char, Csv.start_field.
    destruct Hst as [-> | ->]; simpl; rewrite Hnl, Hq, Hd;
      unfold Csv.parse_add_char; simpl; rewrite append_nil;
      change (String c v) with (String c "" +:+ v);
      by rewrite feed_in_field.
  - exists Csv.QUOTE_IN_QUOTED_FIELD. split; [right; by left|].
    rewrite append_assoc, append_cons, append_nil.
    unfold Csv.parse_process_char, Csv.start_field.
    destruct Hst as [-> | ->]; simpl; unfold Csv.goto; simpl;
      fold Csv.quotechar; by rewrite feed_in_quoted_field, append_nil.
Qed.

Lemma render_fields_cons f f' fs :
  render_fields (f :: f' :: fs) = text_of f +:+ "," +:+ render_fields (f' :: fs).
Proof. reflexivity. Qed.

Lemma feed_fields fs : ∀ st acc eol,
  fs ≠ [] → Forall field_ok fs → newlines eol = true →
  st = Csv.START_FIELD ∨ (st = Csv.START_RECORD ∧ fs ≠ [Unquoted ""]) →
  Csv.feed (Csv.mkReader st "" acc) (render_fields fs +:+ eol)
  = Ok (Csv.mkReader Csv.START_RECORD "" (acc ++ (value_of <$> fs))).
Proof.
  induction fs as [|f fs IH]; intros st acc eol Hne Hok Heol Hst; [done|].
  apply Forall_cons in Hok as [Hf Hok].
  assert (st = Csv.START_RECORD ∨ st = Csv.START_FIELD) as Hst'
    by (destruct Hst as [->|[-> _]]; auto).
  destruct fs as [|f' fs].
  - change (render_fields [f]) with (text_of f).
    destruct (feed_field_at st f eol acc Hst' Hf) as (st' & Hafter & ->).
    apply feed_end_of_field; [|done].
    destruct Hafter as [->|[->|[-> ->]]]; [by left|right; by left|].
    destruct Hst as [->|[_ Hst]]; [right; right; done|done].
  - rewrite render_fields_cons, !append_assoc.
    destruct (feed_field_at st f ("," +:+ render_fields (f' :: fs) +:+ eol) acc Hst' Hf)
      as (st' & Hafter & ->).
    rewrite (feed_delimiter st).
    + rewrite IH; [by rewrite <- app_assoc|done|done|done|by left].
    + done.
    + destruct Hafter as [->|[->|[-> ->]]]; [by left|right; by left|].
      right; right; done.
Qed.

Lemma feed_line l :
  line_ok l →
  Csv.feed Csv.parse_reset (render_line l)
  = Ok (Csv.mkReader Csv.START_RECORD "" (values_of l)).
Proof.
  destruct l as [fs eol]. unfold line_ok, render_line, values_of. simpl.
  intros (Heol & Hok & Hne). destruct fs as [|f fs].
  - simpl. rewrite append_nil. destruct eol as [|c eol]; [done|].
    simpl in Heol. apply andb_prop in Heol as [Hc Heol].
    simpl. unfold Csv.parse_process_char. simpl. rewrite Hc.
    by apply feed_newlines_eat.
  - unfold Csv.parse_reset. rewrite feed_fields; auto.
Qed.

Lemma reader_lines ls :
  Forall line_ok ls →
  Csv.reader (render_line <$> ls) = (values_of <$> ls, None).
Proof.
  unfold Csv.reader. induction 1 as [|l ls Hl _ IH]; [done|].
  rewrite !fmap_cons. simpl. rewrite (feed_line l Hl). simpl.
  by rewrite IH.
Qed.

Lemma zip_row_not_in names : ∀ rec d key,
  key ∉ names → Csv.zip_row names rec d !! key = d !! key.
Proof.
  induction names as [|k ks IH]; intros rec d key Hkey; [by destruct rec|].
  apply not_elem_of_cons in Hkey as [Hne Hkey].
  destruct rec as [|v vs]; simpl; rewrite IH by done;
    by rewrite lookup_insert_ne.
Qed.

Lemma zip_row_lookup names : ∀ rec d i name,
  NoDup names → names !! i = Some name →
  Csv.zip_row names rec d !! name = Some (cell rec i).
Proof.
  induction names as [|k ks IH]; intros rec d i name Hnd Hi; [done|].
  apply NoDup_cons in Hnd as [Hk Hnd].
  destruct i as [|i]; simpl in Hi.
  - injection Hi as ->.
    destruct rec as [|v vs]; simpl; rewrite zip_row_not_in by done;
      by rewrite lookup_insert_eq.
  - destruct rec as [|v vs]; simpl; by rewrite (IH _ _ i).
Qed.

Lemma zip_row_holds names rec :
  NoDup names → row_holds names rec (Csv.zip_row names rec ∅).
Proof.
  intros Hnd. split.
  - intros i name Hi. by apply zip_row_lookup.
  - intros key Hkey. by rewrite zip_row_not_in.
Qed.

Lemma DictReader_lines header ls :
  Forall line_ok (header :: ls) →
  Csv.DictReader (render_line <$> header :: ls)
  = ((λ l, Csv.zip_row (values_of header) (values_of l) ∅) <$> records_of ls, None).
Proof.
  intros Hok. unfold Csv.DictReader. rewrite (reader_lines _ Hok).
  rewrite fmap_cons. f_equal. clear Hok.
  induction ls as [|l ls IH]; [done|].
  unfold records_of in *. rewrite fmap_cons, !filter_cons.
  destruct l as [[|f fs] eol]; simpl; [exact IH|].
  f_equal. exact IH.
Qed.

(** X11.  A pool listing whose lines are well formed and whose header
    names are distinct gives the builder one row for each line after the
    header that is not blank, in order; the row maps the header's i-th
    name to the line's i-th field, to [None] where the line is too short,
    and has no other key, so that fields beyond the header are dropped. *)
Theorem Pool_collect_listing env self b s header ls :
  _builder self = Some b →
  (_extras_tags b < length (dicts s))%nat →
  Forall line_ok (header :: ls) →
  NoDup (values_of header) →
  exec_command env (sent s) (_address self) "lsmdiskgrp -bytes -delim ,"
  = render_line <$> header :: ls →
  ∃ rows,
    Forall2 (λ l row, row_holds (values_of header) (values_of l) row)
            (records_of ls) rows ∧
    (collect env Pool self s).1
    = Res.traverse (λ row, (parse b row "pool" s).1) rows.
Proof.
  intros Hb Hl Hok Hnd Hout.
  exists ((λ l, Csv.zip_row (values_of header) (values_of l) ∅) <$> records_of ls).
  split.
  - apply Forall2_fmap_r, Forall_Forall2_diag, Forall_forall.
    intros l _. by apply zip_row_holds.
  - destruct (Pool_collect_run env self b s Hb Hl) as (extra & Hrun).
    simpl in Hrun. simpl. rewrite Hrun, Hout, (DictReader_lines _ _ Hok). simpl.
    rewrite (traverse_ext (λ row, (parse b row "pool" s).1)
               (λ row, points_of_row b (contents s (_extras_tags b)) row "pool"))
      by (intros row; by rewrite parse_run).
    match goal with |- match ?t with _ => _ end = _ => by destruct t end.
Qed.

Lemma Pool_collect_listing_witness :
  ∃ rows,
    Forall2 (λ l row, row_holds (values_of listing_header) (values_of l) row)
            (records_of [listing_poolA]) rows ∧
    (collect env_example Pool (collector_example (pool_builder None)) store_prod).1
    = Res.traverse (λ row, (parse (pool_builder None) row "pool" store_prod).1) rows.
Proof.
  apply (Pool_collect_listing env_example (collector_example (pool_builder None))
           (pool_builder None) store_prod listing_header [listing_poolA]).
  - reflexivity.
  - simpl. lia.
  - repeat constructor; discriminate.
  - apply (bool_decide_unpack _). vm_compute. exact I.
  - vm_compute. reflexivity.
Defined.

(** X12.  A collector to which no builder was added returns the empty
    list when the appliance reports no row, and stops with
    [AttributeError] as soon as there is one. *)
Theorem collect_without_builder env kind self s rows s1 :
  _builder self = None →
  raw_rows env kind self s = (Ok rows, s1) →
  collect env kind self s
  = (match rows with [] => Ok [] | _ :: _ => Raise AttributeError end, s1).
Proof.
  intros Hb. destruct kind; simpl.
  - unfold Pool_rows, Pool_collect. intros H.
    apply bind_inv_ok in H as (out & s0 & Hout & H).
    rewrite (bind_ok _ _ _ _ _ Hout).
    apply for_rows_inv_ok in H as [He H]. rewrite for_each_ret in H.
    injection H as <- <-. unfold for_rows. rewrite He.
    destruct (Csv.DictReader out).1 as [|row rows']; [done|].
    simpl. unfold mbind, M_bind, builder_parse. by rewrite Hb.
  - unfold Volume_rows, Volume_collect. intros H.
    apply bind_inv_ok in H as (out & s0 & Hout & H).
    rewrite (bind_ok _ _ _ _ _ Hout), (bind_ok _ _ _ _ _ H).
    destruct rows as [|row rows']; [done|].
    simpl. unfold mbind, M_bind, builder_parse. by rewrite Hb.
Qed.

Lemma collect_without_builder_witness :
  collect env_example Pool collector_without_builder initial
  = (Raise AttributeError, mkState [] 1 []).
Proof.
  apply (collect_without_builder env_example Pool collector_without_builder initial
           [({[ "name" := PStr "poolA"; "id" := PStr "1";
                "capacity" := PStr "1000000" ]} : gmap string pyval)]
           (mkState [] 1 []) eq_refl).
  vm_compute. reflexivity.
Defined.

(** ** [__main__] *)

(** X13.  A run that completes has called the sink only after the whole
    collection: one [create_database], then one [write_points] for each
    collected series, in the order of collection, all for the configured
    database and with millisecond precision. *)
Theorem main_writes_after_collection env conf fixed now s s' :
  main env conf fixed now s = (Ok (), s') →
  ∃ cfg series s1,
    get_influxdb conf = Ok cfg ∧
    collect_all env conf fixed now s = (Ok series, s1) ∧
    sink s1 = sink s ∧
    sent s' = sent s1 ∧
    sink s' = sink s ++ CreateDatabase (db_database cfg)
                :: ((λ serie, WritePoints (db_database cfg) serie "ms") <$> series).
Proof.
  rewrite main_run. destruct (get_influxdb conf) as [cfg|e]; [|discriminate].
  destruct (collect_all env conf fixed now s) as [[series|e] s1] eqn:Hc;
    [|discriminate].
  destruct (database_reachable env); [|discriminate].
  intros [= <-]. exists cfg, series, s1.
  pose proof (keeps_sink_collect_all env conf fixed now s) as Hk.
  rewrite Hc in Hk. simpl in Hk.
  split_and!; try done. simpl. by rewrite Hk.
Qed.

Lemma main_writes_after_collection_witness :
  ∃ cfg series s',
    main env_pool_only conf_example false 0 initial = (Ok (), s') ∧
    sink s' = [] ++ CreateDatabase (db_database cfg)
                :: ((λ serie, WritePoints (db_database cfg) serie "ms") <$> series).
Proof.
  destruct (main env_pool_only conf_example false 0 initial) as [r s'] eqn:Hrun.
  assert (r = Ok ()) as ->.
  { apply (f_equal fst) in Hrun. vm_compute in Hrun. by subst r. }
  destruct (main_writes_after_collection _ _ _ _ _ _ Hrun)
    as (cfg & series & s1 & _ & _ & _ & _ & Hsink).
  by exists cfg, series, s'.
Defined.

(** X14.  A run that stops with an exception has called the sink not
    once: nothing is created and nothing written. *)
Theorem main_error_writes_nothing env conf fixed now s e s' :
  main env conf fixed now s = (Raise e, s') → sink s' = sink s.
Proof.
  rewrite main_run. destruct (get_influxdb conf) as [cfg|e0].
  - pose proof (keeps_sink_collect_all env conf fixed now s) as Hk.
    destruct (collect_all env conf fixed now s) as [[series|e1] s1].
    + destruct (database_reachable env); [discriminate|].
      by intros [= _ <-].
    + by intros [= _ <-].
  - by intros [= _ <-].
Qed.

Lemma main_error_writes_nothing_witness :
  ∃ e s', main env_not_numeric conf_example false 0 initial = (Raise e, s') ∧
          sink s' = [].
Proof.
  destruct (main env_not_numeric conf_example false 0 initial) as [r s'] eqn:Hrun.
  assert (∃ e, r = Raise e) as (e & ->).
  { apply (f_equal fst) in Hrun. vm_compute in Hrun. subst r. eauto. }
  exists e, s'. split; [reflexivity|].
  exact (main_error_writes_nothing _ _ _ _ _ _ _ Hrun).
Defined.

(** X15.  When the database cannot be reached the run ends with exit
    status 1, but only after the collection: the configuration was read
    and every appliance was queried before. *)
Theorem main_database_unreachable env conf fixed now s cfg series s1 :
  database_reachable env = false →
  get_influxdb conf = Ok cfg →
  collect_all env conf fixed now s = (Ok series, s1) →
  main env conf fixed now s = (Raise (SystemExit 1), s1).
Proof. intros Hdb Hcfg Hc. by rewrite main_run, Hcfg, Hc, Hdb. Qed.

Lemma main_database_unreachable_witness :
  ∃ s1, main env_no_database conf_example false 0 initial
        = (Raise (SystemExit 1), s1) ∧ sent s1 = 2%nat.
Proof.
  destruct (collect_all env_no_database conf_example false 0 initial)
    as [r s1] eqn:Hc.
  assert (∃ series, r = Ok series) as (series & ->).
  { apply (f_equal fst) in Hc. vm_compute in Hc. subst r. eauto. }
  assert (sent s1 = 2%nat) as Hsent.
  { apply (f_equal (λ x, sent x.2)) in Hc. simpl in Hc. rewrite <- Hc.
    vm_compute. reflexivity. }
  exists s1. split; [|exact Hsent].
  apply (main_database_unreachable env_no_database conf_example false 0 initial
           (mkInflux "influx.example" None None "svc2influxdb") series s1);
    [reflexivity|vm_compute; reflexivity|exact Hc].
Defined.

(** X16.  When the connection to an appliance fails, for its credentials
    or for a timeout, the turn of the loop ends with exit status 1 and no
    command has been sent to that appliance. *)
Theorem main_step_connection_failure env conf name acc s svc s1 :
  get_svc_step conf name s = (Ok svc, s1) →
  connect env (eq_address svc) (eq_login svc) (eq_password svc) ≠ Connected →
  main_step env acc (get_svc_step conf name) s = (Raise (SystemExit 1), s1) ∧
  sent s1 = sent s.
Proof.
  intros Hsvc Hconnect. split.
  - destruct acc as [[pb vb] series]. unfold main_step.
    rewrite (bind_ok _ _ _ _ _ Hsvc). unfold mbind, M_bind, SSHCollector_init.
    by destruct (connect env _ _ _).
  - apply get_svc_step_inv in Hsvc as (options & _ & _ & -> & _). done.
Qed.

Lemma main_step_connection_failure_witness :
  ∃ s1, main_step env_timed_out (pool_builder_main, volume_builder_main, [])
          (get_svc_step conf_example "SVC1") store_main
        = (Raise (SystemExit 1), s1) ∧ sent s1 = 0%nat.
Proof.
  destruct (get_svc_step conf_example "SVC1" store_main) as [r s1] eqn:Hsvc.
  assert (∃ svc, r = Ok svc) as (svc & ->).
  { apply (f_equal fst) in Hsvc. vm_compute in Hsvc. subst r. eauto. }
  exists s1.
  apply (main_step_connection_failure env_timed_out conf_example "SVC1"
           (pool_builder_main, volume_builder_main, []) store_main svc s1 Hsvc).
  discriminate.
Defined.

Lemma get_svc_no_appliance conf :
  (∀ name, name ∈ sections conf → name = "INFLUXDB") → get_svc conf = [].
Proof.
  unfold get_svc. intros H.
  induction (sections conf) as [|name names IH]; [done|].
  rewrite filter_cons, decide_False.
  - apply IH. intros n Hn. apply H. by right.
  - intros Hne. apply Hne, H. left.
Qed.

(** X17.  With a configuration that has no section besides [INFLUXDB]
    the run sends no command and only asks the sink to create the
    database. *)
Theorem main_no_appliance env conf fixed now s cfg :
  (∀ name, name ∈ sections conf → name = "INFLUXDB") →
  get_influxdb conf = Ok cfg →
  database_reachable env = true →
  ∃ s', main env conf fixed now s = (Ok (), s') ∧
        sent s' = sent s ∧
        sink s' = sink s ++ [CreateDatabase (db_database cfg)].
Proof.
  intros Hnone Hcfg Hdb. rewrite main_run, Hcfg.
  unfold collect_all. rewrite (get_svc_no_appliance conf Hnone).
  simpl. rewrite Hdb. eexists. split; [reflexivity|]. by simpl.
Qed.

Lemma main_no_appliance_witness :
  ∃ s', main env_example conf_influx_only true 5 initial = (Ok (), s') ∧
        sent s' = 0%nat ∧
        sink s' = [CreateDatabase "metrics"].
Proof.
  apply (main_no_appliance env_example conf_influx_only true 5 initial
           (mkInflux "influx.example" None None "metrics")).
  - intros name Hin. by apply list_elem_of_singleton in Hin.
  - vm_compute. reflexivity.
  - reflexivity.
Defined.

(** The points a collector returns, from the builder's point of view. *)
Lemma collect_points env kind self b s xs serie p :
  _builder self = Some b →
  (_extras_tags b < length (dicts s))%nat →
  (collect env kind self s).1 = Ok xs →
  serie ∈ xs → p ∈ serie →
  ∃ m n merged,
    m ∈ _measurements b ∧
    p = point_for b (prefix_of kind) m merged n ∧
    (∀ t, t ∈ _tags b → is_Some (merged !! t)) ∧
    (∀ key, is_Some (contents s (_extras_tags b) !! key) → is_Some (merged !! key)).
Proof.
  intros Hb Hl Hrun Hserie Hp.
  destruct (collect_run env kind self b s Hb Hl) as (_ & _ & Hiff).
  apply Hiff in Hrun as (rows & _ & Hxs).
  apply traverse_ok_inv in Hxs.
  apply list_elem_of_lookup in Hserie as [i Hi].
  destruct (Forall2_lookup_r _ _ _ _ _ Hxs Hi) as (row & _ & Hrow).
  destruct (points_of_row_elem _ _ _ _ _ _ Hrow Hp)
    as (other & m & n & Hother & Hm & _ & _ & ->).
  apply row_tags_lookup in Hother as [Hhas Hlk].
  exists m, n, (other ∪ contents s (_extras_tags b)). split_and!; [done|done| |].
  - intros t Ht. apply lookup_union_is_Some. left.
    rewrite Hlk, decide_True by done. by apply Hhas.
  - intros key Hkey. apply lookup_union_is_Some. by right.
Qed.

Lemma collect_collected_points env kind self b t s xs :
  _builder self = Some b →
  builder_of kind t b →
  (_extras_tags b < length (dicts s))%nat →
  is_Some (contents s (_extras_tags b) !! "svc") →
  (collect env kind self s).1 = Ok xs →
  Forall (Forall (collected_point t)) xs.
Proof.
  intros Hb (Hm & Ht & Hf) Hl Hsvc Hrun.
  apply Forall_forall. intros serie Hserie.
  apply Forall_forall. intros p Hp.
  destruct (collect_points env kind self b s xs serie p Hb Hl Hrun Hserie Hp)
    as (m & n & merged & Hin & -> & Htags & Hextras).
  unfold collected_point, point_for. simpl. rewrite Hf. split_and!.
  - exists kind, m. by rewrite <- Hm.
  - by exists n.
  - done.
  - by apply Hextras.
  - apply Htags. rewrite Ht. destruct kind; [left|left].
  - apply Htags. rewrite Ht. destruct kind; right; left.
Qed.

Lemma section_tags_svc options name :
  is_Some (section_tags options {[ "svc" := PStr name ]} !! "svc").
Proof.
  rewrite section_tags_lookup. destruct (options !! "svc") as [v|].
  - rewrite decide_False; [done|]. intros Hin.
    apply (bool_decide_pack _) in Hin. vm_compute in Hin. exact Hin.
  - by rewrite lookup_singleton_eq.
Qed.

Lemma main_step_points env conf name pb vb series s pb' vb' series' s' t :
  builder_of Pool t pb → builder_of Volume t vb →
  main_step env (pb, vb, series) (get_svc_step conf name) s
  = (Ok (pb', vb', series'), s') →
  builder_of Pool t pb' ∧ builder_of Volume t vb' ∧
  ∃ new, series' = series ++ new ∧ Forall (Forall (collected_point t)) new.
Proof.
  intros Hpb Hvb. unfold main_step. intros H.
  apply bind_inv_ok in H as (svc & s1 & Hsvc & H).
  apply bind_inv_ok in H as (c1 & s1a & Hc1 & H).
  apply SSHCollector_init_inv in Hc1 as [-> ->].
  apply bind_inv_ok in H as (c2 & s1b & Hc2 & H).
  apply SSHCollector_init_inv in Hc2 as [-> ->].
  apply bind_inv_ok in H as (xs & s2 & Hxs & H).
  apply bind_inv_ok in H as (ys & s3 & Hys & H).
  injection H as <- <- <- <-.
  apply get_svc_step_inv in Hsvc as (options & Hsec & Hl & -> & _).
  set (extras := section_tags options {[ "svc" := PStr name ]}) in *.
  set (s1 := mkState (dicts s ++ [extras]) (sent s) (sink s)) in *.
  set (l := eq_tags svc) in *.
  assert (l < length (dicts s1))%nat as Hvalid.
  { subst s1. simpl. rewrite length_app. simpl. lia. }
  assert (contents s1 l = extras) as Hs1.
  { subst s1. rewrite Hl. apply contents_app_last. }
  set (c := mkCollector None _ _ _) in *.
  destruct (collect_run env Pool (add_series_builder c (add_extras_tags pb l))
              (add_extras_tags pb l) s1 eq_refl Hvalid) as ([e1 Hd1] & _ & _).
  rewrite Hxs in Hd1. cbn [snd] in Hd1.
  assert (l < length (dicts s2))%nat as Hvalid2.
  { rewrite Hd1, length_app. lia. }
  assert (contents s2 l = extras) as Hs2.
  { rewrite <- Hs1. by eapply contents_prefix. }
  split_and!; [done|done|].
  exists (xs ++ ys). split; [done|]. apply Forall_app. split.
  - apply (collect_collected_points env Pool
             (add_series_builder c (add_extras_tags pb l))
             (add_extras_tags pb l) t s1); [done|done|done| |by rewrite Hxs].
    simpl. rewrite Hs1. apply section_tags_svc.
  - apply (collect_collected_points env Volume
             (add_series_builder c (add_extras_tags vb l))
             (add_extras_tags vb l) t s2); [done|done|done| |by rewrite Hys].
    simpl. rewrite Hs2. apply section_tags_svc.
Qed.

Lemma main_loop_points env conf t names : ∀ pb vb series s series' s',
  builder_of Pool t pb → builder_of Volume t vb →
  Forall (Forall (collected_point t)) series →
  main_loop env (pb, vb, series) (get_svc_step conf <$> names) s = (Ok series', s') →
  Forall (Forall (collected_point t)) series'.
Proof.
  induction names as [|name names IH]; intros pb vb series s series' s' Hpb Hvb Hs H.
  - simpl in H. by injection H as <- <-.
  - rewrite fmap_cons in H. cbn [main_loop] in H.
    apply bind_inv_ok in H as ([[pb1 vb1] series1] & s1 & Hstep & H).
    apply (main_step_points _ _ _ _ _ _ _ _ _ _ _ t Hpb Hvb) in Hstep
      as (Hpb1 & Hvb1 & new & -> & Hnew).
    apply (IH pb1 vb1 (series ++ new) s1 series' s'); try done.
    by apply Forall_app.
Qed.

(** X18.  Whatever the appliances answer, every point of a collection
    that completes is named [pool_m] or [volume_m] for a measurement name
    [m] of that schema, has the single field [value], carries the tags
    [svc], [name] and [id], and has the time of the run exactly when
    [--fixed] was given and that time is not 0; otherwise it has no
    time. *)
Theorem collect_all_points env conf fixed now s series s1 :
  collect_all env conf fixed now s = (Ok series, s1) →
  ∀ serie p, serie ∈ series → p ∈ serie →
    (∃ kind m, m ∈ schema_measurements kind ∧
               measurement p = series_name (prefix_of kind) m) ∧
    (∃ n, fields p = {[ "value" := n ]}) ∧
    time p = (if fixed && negb (now =? 0) then Some now else None) ∧
    is_Some (tags p !! "svc") ∧
    is_Some (tags p !! "name") ∧
    is_Some (tags p !! "id").
Proof.
  unfold collect_all. intros H serie p Hserie Hp.
  apply bind_inv_ok in H as (pb & s0 & Hpb & H).
  apply bind_inv_ok in H as (vb & s0' & Hvb & H).
  set (t := if fixed then Some now else None) in *.
  assert (builder_of Pool t pb) as Hpool by (by injection Hpb as <- _).
  assert (builder_of Volume t vb) as Hvolume by (by injection Hvb as <- _).
  unfold get_svc in H.
  pose proof (main_loop_points env conf t _ pb vb [] s0' series s1
                Hpool Hvolume (Forall_nil_2 _) H) as Hall.
  rewrite Forall_forall in Hall. specialize (Hall serie Hserie).
  rewrite Forall_forall in Hall. specialize (Hall p Hp).
  destruct Hall as (Hname & Hfield & Htime & Htags).
  split_and!; try done; try apply Htags.
  rewrite Htime. subst t. destruct fixed; [|done]. simpl.
  by destruct (now =? 0).
Qed.

Lemma collect_all_points_witness :
  ∃ p s1,
    collect_all env_pool_only conf_example true 1234 initial = (Ok [[p]], s1) ∧
    time p = Some 1234 ∧
    is_Some (tags p !! "svc").
Proof.
  destruct (collect_all env_pool_only conf_example true 1234 initial)
    as [r s1] eqn:Hrun.
  assert (∃ p, r = Ok [[p]]) as (p & ->).
  { apply (f_equal fst) in Hrun. vm_compute in Hrun. subst r. eauto. }
  destruct (collect_all_points _ _ _ _ _ _ _ Hrun [p] p) as (_ & _ & Ht & Hsvc & _);
    [left|left|].
  by exists p, s1.
Defined.
